(** * A reverse-mode automatic differentiation engine (nn.py)

    The engine of [nn.py] is a [Tensor] class, a handful of operation
    constructors ([Add], [Mul], [Neg], [Matmul], [Pow], [Div], [Exp]) that
    attach a backward closure to the node they build, and the driver
    [Tensor.backward] that orders the graph and replays the closures.

    The embedding keeps the structure of the source:
    - Python objects live in a heap; a [Tensor] reference is its index in
      the heap, so that aliasing (one node used as operand twice) is the
      aliasing of the source;
    - the closures [_backward] are defunctionalised: a [closure] value holds
      the captured references and [call] runs the body of the source;
    - everything that mutates or may raise runs in a state-and-error monad;
    - the array library (numpy) and the iteration order of a Python [set]
      are not part of the source: they are the fields of the class [Host]. *)

From stdpp Require Import base option list gmap strings.
From Stdlib Require Import ZArith Lia.

Open Scope list_scope.

(** ** The host: the array library and the runtime *)

(** What [nn.py] takes from numpy and from the Python runtime.  An array
    operation that raises (shapes that do not broadcast, a result that the
    target of [+=] cannot hold) returns [None].  The laws are the ones of a
    library whose arrays all have one numeric dtype: an in-place addition
    keeps the shape of its target and succeeds on equal shapes, and the
    matrix product of conforming matrices exists. *)
Class Host := {
  arr : Type;
  scalar : Type;
  shape : arr → list nat;
  zeros_like : arr → arr;
  ones_like : arr → arr;
  of_scalar : scalar → arr;
  int_lit : Z → scalar;
  sc_sub : scalar → scalar → scalar;
  np_add : arr → arr → option arr;
  np_mul : arr → arr → option arr;
  np_truediv : arr → arr → option arr;
  np_matmul : arr → arr → option arr;
  np_power : arr → arr → option arr;
  np_iadd : arr → arr → option arr;
  np_negative : arr → arr;
  np_exp : arr → option arr;
  transpose : arr → arr;
  set_iter : list nat → list nat;
  shape_zeros_like : ∀ x, shape (zeros_like x) = shape x;
  shape_ones_like : ∀ x, shape (ones_like x) = shape x;
  shape_iadd : ∀ g x g', np_iadd g x = Some g' → shape g' = shape g;
  iadd_same_shape : ∀ g x, shape x = shape g → is_Some (np_iadd g x);
  shape_matmul : ∀ x y m k n, shape x = [m; k] → shape y = [k; n] →
    ∃ r, np_matmul x y = Some r ∧ shape r = [m; n];
  shape_transpose : ∀ x m k, shape x = [m; k] → shape (transpose x) = [k; m];
  set_iter_NoDup : ∀ l, NoDup (set_iter l);
  set_iter_elem : ∀ l x, x ∈ set_iter l ↔ x ∈ l
}.

(** ** Errors and the monad *)

Inductive error :=
  | AttributeError   (* attribute access on an object that is not a Tensor *)
  | AssertionError   (* the [assert] of [__pow__] *)
  | ArrayError       (* the array library raised *)
  | DanglingRef      (* a reference outside the heap: no Python counterpart *)
  | OutOfFuel.       (* the recursion bound of the model was reached *)

Inductive result (A : Type) :=
  | Ok (a : A)
  | Err (e : error).
Arguments Ok {A} a.
Arguments Err {A} e.

Section Engine.
Context {np : Host}.

(** The body a [_backward] attribute points to, with the references it
    captured.  [lambda_None] is the [lambda: None] of [Tensor.__init__]. *)
Inductive closure :=
  | lambda_None
  | Add_backward (a b z : nat)
  | Mul_backward (a b z : nat)
  | Neg_backward (a z : nat)
  | Matmul_backward (a b z : nat)
  | Pow_backward (a : nat) (b : scalar) (z : nat)
  | Div_backward (a b z : nat)
  | Exp_backward (a z : nat).

Record Tensor := mkTensor {
  data : arr;
  children : list nat;
  grad : arr;
  _backward : closure;
  _prev : list nat;
  _op : string;
  label : string;
  requires_grad : bool
}.

Definition with_grad (g : arr) (t : Tensor) : Tensor :=
  mkTensor (data t) (children t) g (_backward t) (_prev t) (_op t) (label t)
           (requires_grad t).

Definition with_backward (c : closure) (t : Tensor) : Tensor :=
  mkTensor (data t) (children t) (grad t) c (_prev t) (_op t) (label t)
           (requires_grad t).

Abbreviation heap := (list Tensor).

Definition M (A : Type) : Type := heap → result (A * heap).

#[export] Instance M_ret : MRet M := λ A a s, Ok (a, s).

#[export] Instance M_bind : MBind M := λ A B k m s,
  match m s with
  | Ok (a, s') => k a s'
  | Err e => Err e
  end.

Definition raise {A} (e : error) : M A := λ _, Err e.

Definition when (c : bool) (m : M unit) : M unit :=
  if c then m else mret tt.

(** Reading an attribute of the object a reference points to. *)
Definition get (v : nat) : M Tensor :=
  λ s, match s !! v with
       | Some t => Ok (t, s)
       | None => Err DanglingRef
       end.

(** [v.grad = g]. *)
Definition set_grad (v : nat) (g : arr) : M unit :=
  λ s, match s !! v with
       | Some t => Ok (tt, <[v := with_grad g t]> s)
       | None => Err DanglingRef
       end.

(** [v._backward = c]. *)
Definition set_backward (v : nat) (c : closure) : M unit :=
  λ s, match s !! v with
       | Some t => Ok (tt, <[v := with_backward c t]> s)
       | None => Err DanglingRef
       end.

(** The result of an array operation, or the exception it raised. *)
Definition host (o : option arr) : M arr :=
  match o with
  | Some x => mret x
  | None => raise ArrayError
  end.

(** [v.grad += x]: the in-place addition of numpy, then the attribute
    assignment. *)
Definition iadd_grad (v : nat) (x : arr) : M unit :=
  t ← get v;
  g ← host (np_iadd (grad t) x);
  set_grad v g.

(** [Tensor.__init__]: the new object is the last one of the heap. *)
Definition Tensor_init (data : arr) (_children : list nat) (_op : string)
    (requires_grad : bool) : M nat :=
  λ s, Ok (length s,
           (s ++ [mkTensor data [] (zeros_like data) lambda_None
                           (set_iter _children) _op "" requires_grad])%list).

(** [Tensor(data, requires_grad=requires_grad)]: a leaf. *)
Definition leaf (data : arr) (requires_grad : bool) : M nat :=
  Tensor_init data [] "" requires_grad.

(** ** The operation constructors *)

Definition Add (a b : nat) : M nat :=
  ta ← get a; tb ← get b;
  let requires_grad := requires_grad ta || requires_grad tb in
  data ← host (np_add (data ta) (data tb));
  z ← Tensor_init data [a; b] "+" requires_grad;
  set_backward z (Add_backward a b z) ;;
  mret z.

Definition Mul (a b : nat) : M nat :=
  ta ← get a; tb ← get b;
  let requires_grad := requires_grad ta || requires_grad tb in
  data ← host (np_mul (data ta) (data tb));
  z ← Tensor_init data [a; b] "*" requires_grad;
  set_backward z (Mul_backward a b z) ;;
  mret z.

Definition Neg (a : nat) : M nat :=
  ta ← get a;
  data ← host (np_mul (data ta) (of_scalar (int_lit (-1))));
  z ← Tensor_init data [a] "neg" (requires_grad ta);
  set_backward z (Neg_backward a z) ;;
  mret z.

Definition Matmul (a b : nat) : M nat :=
  ta ← get a; tb ← get b;
  let requires_grad := requires_grad ta || requires_grad tb in
  data ← host (np_matmul (data ta) (data tb));
  z ← Tensor_init data [a; b] "@" requires_grad;
  set_backward z (Matmul_backward a b z) ;;
  mret z.

Definition Pow (a : nat) (b : scalar) : M nat :=
  ta ← get a;
  data ← host (np_power (data ta) (of_scalar b));
  z ← Tensor_init data [a] "pow" (requires_grad ta);
  set_backward z (Pow_backward a b z) ;;
  mret z.

Definition Div (a b : nat) : M nat :=
  ta ← get a; tb ← get b;
  let requires_grad := requires_grad ta || requires_grad tb in
  data ← host (np_truediv (data ta) (data tb));
  z ← Tensor_init data [a; b] "*" requires_grad;
  set_backward z (Div_backward a b z) ;;
  mret z.

Definition Exp (a : nat) : M nat :=
  ta ← get a;
  data ← host (np_exp (data ta));
  z ← Tensor_init data [a] "exp" (requires_grad ta);
  set_backward z (Exp_backward a z) ;;
  mret z.

(** ** The operators of the class *)

(** What the public surface passes as the right operand of a binary
    operator: a Tensor or a numeric literal (an [int] or a [float]). *)
Inductive operand :=
  | OTensor (t : nat)
  | ONum (c : scalar).



(** [other if isinstance(other, Tensor) else Tensor(other)]. *)
Definition coerce (other : operand) : M nat :=
  match other with
  | OTensor t => mret t
  | ONum c => Tensor_init (of_scalar c) [] "" false
  end.

(** Reading [requires_grad] or [data] of an operand that was not coerced:
    a number has neither attribute. *)
Definition tensor_of (other : operand) : M nat :=
  match other with
  | OTensor t => mret t
  | ONum _ => raise AttributeError
  end.

Definition __add__ (self : nat) (other : operand) : M nat :=
  other ← coerce other;
  Add self other.

Definition __radd__ (self : nat) (other : operand) : M nat :=
  __add__ self other.

Definition __mul__ (self : nat) (other : operand) : M nat :=
  other ← coerce other;
  Mul self other.

Definition __rmul__ (self : nat) (other : operand) : M nat :=
  __mul__ self other.

Definition __neg__ (self : nat) : M nat :=
  Neg self.

Definition __sub__ (self : nat) (other : operand) : M nat :=
  other ← coerce other;
  n ← __neg__ other;
  __add__ self (OTensor n).

Definition __rsub__ (self : nat) (other : operand) : M nat :=
  __sub__ self other.

Definition __matmul__ (self : nat) (other : operand) : M nat :=
  other ← tensor_of other;
  Matmul self other.


Definition __truediv__ (self : nat) (other : operand) : M nat :=
  other ← coerce other;
  Div self other.

Definition exp (self : nat) : M nat :=
  Exp self.

(** The constructors under one type, to speak of all of them at once. *)
Inductive op_call :=
  | CAdd (a b : nat)
  | CMul (a b : nat)
  | CNeg (a : nat)
  | CMatmul (a b : nat)
  | CPow (a : nat) (p : scalar)
  | CDiv (a b : nat)
  | CExp (a : nat).

Definition apply_op (c : op_call) : M nat :=
  match c with
  | CAdd a b => Add a b
  | CMul a b => Mul a b
  | CNeg a => Neg a
  | CMatmul a b => Matmul a b
  | CPow a p => Pow a p
  | CDiv a b => Div a b
  | CExp a => Exp a
  end.

(** The binary operators of the class under one type. *)
Inductive binop := OpAdd | OpMul | OpSub | OpMatmul | OpDiv.

Definition operator (o : binop) : nat → operand → M nat :=
  match o with
  | OpAdd => __add__
  | OpMul => __mul__
  | OpSub => __sub__
  | OpMatmul => __matmul__
  | OpDiv => __truediv__
  end.

(** [requires_grad] of the object behind a reference. *)
Definition flag (s : heap) (v : nat) : bool :=
  from_option requires_grad false (s !! v).

(** ** The backward closures *)

(** [node._backward()]: the body of the [_backward] the constructor
    defined, on the references it captured. *)
Definition call (c : closure) : M unit :=
  match c with
  | lambda_None => mret tt
  | Add_backward a b z =>
      ta ← get a;
      when (requires_grad ta)
        (tz ← get z; iadd_grad a (grad tz)) ;;
      tb ← get b;
      when (requires_grad tb)
        (tz ← get z; iadd_grad b (grad tz))
  | Mul_backward a b z =>
      ta ← get a;
      when (requires_grad ta)
        (tb ← get b; tz ← get z;
         x ← host (np_mul (data tb) (grad tz));
         iadd_grad a x) ;;
      tb ← get b;
      when (requires_grad tb)
        (ta ← get a; tz ← get z;
         x ← host (np_mul (grad ta) (grad tz));
         iadd_grad b x)
  | Neg_backward a z =>
      ta ← get a;
      when (requires_grad ta)
        (tz ← get z;
         x ← host (np_mul (of_scalar (int_lit (-1))) (grad tz));
         iadd_grad a x)
  | Matmul_backward a b z =>
      ta ← get a;
      when (requires_grad ta)
        (tz ← get z; tb ← get b;
         x ← host (np_matmul (grad tz) (transpose (data tb)));
         iadd_grad a x) ;;
      tb ← get b;
      when (requires_grad tb)
        (ta ← get a; tz ← get z;
         x ← host (np_matmul (transpose (data ta)) (grad tz));
         iadd_grad b x)
  | Pow_backward a b z =>
      ta ← get a;
      when (requires_grad ta)
        (p ← host (np_power (data ta) (of_scalar (sc_sub b (int_lit 1))));
         x ← host (np_mul (of_scalar b) p);
         tz ← get z;
         y ← host (np_mul x (grad tz));
         iadd_grad a y)
  | Div_backward a b z =>
      ta ← get a;
      when (requires_grad ta)
        (tz ← get z; tb ← get b;
         q ← host (np_truediv (of_scalar (int_lit 1)) (data tb));
         x ← host (np_mul (grad tz) q);
         iadd_grad a x) ;;
      tb ← get b;
      when (requires_grad tb)
        (tz ← get z; ta ← get a;
         x ← host (np_mul (np_negative (grad tz)) (data ta));
         p ← host (np_power (data tb) (of_scalar (int_lit 2)));
         y ← host (np_truediv x p);
         iadd_grad b y)
  | Exp_backward a z =>
      ta ← get a;
      when (requires_grad ta)
        (tz ← get z;
         x ← host (np_mul (data tz) (grad tz));
         iadd_grad a x)
  end.

(** ** The driver *)

(** A [for] loop whose body may raise, over explicit loop state. *)
Fixpoint for_each {S : Type} (l : list nat) (body : nat → S → result S)
    (st : S) : result S :=
  match l with
  | [] => Ok st
  | x :: l =>
      match body x st with
      | Ok st => for_each l body st
      | Err e => Err e
      end
  end.

(** The local function [build_topo] of [backward].  Its two captured
    variables, the set [visited] and the list [topo], are the loop state;
    [fuel] bounds the depth of the recursion. *)
Fixpoint build_topo (s : heap) (fuel : nat) (v : nat)
    (st : gset nat * list nat) : result (gset nat * list nat) :=
  match fuel with
  | 0 => Err OutOfFuel
  | S fuel =>
      if decide (v ∈ st.1) then Ok st
      else
        match s !! v with
        | None => Err DanglingRef
        | Some t =>
            match for_each (_prev t) (build_topo s fuel)
                           ({[v]} ∪ st.1, st.2) with
            | Ok st => Ok (st.1, st.2 ++ [v])
            | Err e => Err e
            end
        end
  end.

(** [for node in l: node._backward()]. *)
Fixpoint call_all (l : list nat) : M unit :=
  match l with
  | [] => mret tt
  | node :: l => t ← get node; call (_backward t) ;; call_all l
  end.

(** [self.grad = np.ones_like(self.data)]. *)
Definition seed (self : nat) : M unit :=
  t ← get self;
  set_grad self (ones_like (data t)).

(** The order [build_topo(self)] leaves in [topo].  No node is deeper in
    the graph than the heap has objects, which gives the fuel. *)
Definition topo_order (s : heap) (self : nat) : result (list nat) :=
  match build_topo s (S (length s)) self (∅, []) with
  | Ok st => Ok st.2
  | Err e => Err e
  end.

(** [Tensor.backward]; its [print(topo)] leaves the heap as it is and is
    left out. *)
Definition backward (self : nat) : M unit :=
  λ s, match topo_order s self with
       | Ok topo => (seed self ;; call_all (reverse topo)) s
       | Err e => Err e
       end.

(** ** The graph *)

(** [c] is one of the children of [v]: a member of [v._prev]. *)
Definition child (s : heap) (v c : nat) : Prop :=
  ∃ t, s !! v = Some t ∧ c ∈ _prev t.

(** The nodes [build_topo] can reach from [v]. *)
Definition reachable (s : heap) : nat → nat → Prop := rtc (child s).

(** A constructor only refers to objects that exist already, so the
    children of a node are older than the node. *)
Definition acyclic (s : heap) : Prop :=
  ∀ v c, child s v c → c < v.

(** [acyclic], as a test. *)
Definition acyclicb (s : heap) : bool :=
  forallb (λ p, forallb (λ c, c <? p.1) (_prev p.2)) (imap pair s).

(** Every node of [l] comes after all its children. *)
Definition children_before (s : heap) (l : list nat) : Prop :=
  ∀ i v c, l !! i = Some v → child s v c → c ∈ take i l.

(** The references whose [grad] a closure may add to. *)
Definition targets (c : closure) : list nat :=
  match c with
  | lambda_None => []
  | Add_backward a b _ | Mul_backward a b _ | Matmul_backward a b _
  | Div_backward a b _ => [a; b]
  | Neg_backward a _ | Pow_backward a _ _ | Exp_backward a _ => [a]
  end.

(** [s'] is [s] up to the gradients of the nodes in [W]. *)
Definition grad_only (W : nat → Prop) (s s' : heap) : Prop :=
  length s' = length s ∧
  ∀ v t, s !! v = Some t →
    ∃ g, s' !! v = Some (with_grad g t) ∧ (¬ W v → g = grad t).

(** The nodes whose gradient the closure [c] changes on the heap [s]. *)
Definition writes (c : closure) (s : heap) (v : nat) : Prop :=
  v ∈ targets c ∧ flag s v = true.

(** ** Auxiliary notions *)

(** The object a constructor allocates, once its closure is attached. *)
Definition node (d : arr) (_children : list nat) (_op : string)
    (requires_grad : bool) (c : closure) : Tensor :=
  mkTensor d [] (zeros_like d) c (set_iter _children) _op "" requires_grad.

(** [Tensor(c)] for a numeric literal [c]. *)
Definition literal (c : scalar) : Tensor :=
  node (of_scalar c) [] "" false lambda_None.

(** The state of [build_topo] between two calls whose argument is below
    [b]: the nodes below [b] that were visited are finished. *)
Definition topo_inv (s : heap) (b : nat) (st : gset nat * list nat) : Prop :=
  NoDup st.2 ∧ children_before s st.2 ∧
  (∀ u, u ∈ st.2 → u ∈ st.1) ∧
  (∀ u, u < b → u ∈ st.1 → u ∈ st.2).

(** What a run of [build_topo], or of the loop over the children, adds to
    the state: the nodes [new], none of them visited before, appended to
    [topo] and added to [visited]. *)
Definition topo_adds (s : heap) (st : gset nat * list nat)
    (new : list nat) : Prop :=
  NoDup (st.2 ++ new) ∧ children_before s (st.2 ++ new) ∧
  (∀ u, u ∈ new → u ∉ st.1).

Definition topo_next (st : gset nat * list nat) (new : list nat) :
    gset nat * list nat :=
  (st.1 ∪ list_to_set new, st.2 ++ new).

(** The nodes whose gradient some closure of the nodes of [l] changes. *)
Definition written (l : list nat) (s : heap) (v : nat) : Prop :=
  ∃ n t, n ∈ l ∧ s !! n = Some t ∧ writes (_backward t) s v.

(** The references a closure captured are older than its node. *)
Definition closures_older (s : heap) : Prop :=
  ∀ v t x, s !! v = Some t → x ∈ targets (_backward t) → x < v.


(** [if rg: g += x], as a value. *)
Definition accumulate (rg : bool) (g x : arr) : option arr :=
  if rg then np_iadd g x else Some g.

(** A node without children and with the empty closure. *)
Definition is_leaf (s : heap) (n : nat) : Prop :=
  ∃ t, s !! n = Some t ∧ _prev t = [] ∧ _backward t = lambda_None.


(** The gradients a run leaves, in the order of the heap. *)
Definition final_grads {A} (r : result (A * heap)) : option (list arr) :=
  match r with
  | Ok (_, s) => Some (grad <$> s)
  | Err _ => None
  end.

(** [z.grad = g; z._backward()]: the closure of [z] on its own. *)
Definition consumer_alone (z : nat) (g : arr) : M unit :=
  set_grad z g ;;
  t ← get z;
  call (_backward t).

(** ** More of the class and of the graph *)


(** The operands of a constructor call. *)
Definition operands (c : op_call) : list nat :=
  match c with
  | CAdd a b | CMul a b | CMatmul a b | CDiv a b => [a; b]
  | CNeg a | CPow a _ | CExp a => [a]
  end.

(** [g'] is [g] after some in-place additions [g += x]. *)
Inductive iadds : arr → arr → Prop :=
  | iadds_refl g : iadds g g
  | iadds_step g x g' g'' :
      np_iadd g x = Some g' → iadds g' g'' → iadds g g''.

(** [s'] is [s] where gradients have been added to in place, and nothing
    else has changed. *)
Definition accumulated (s s' : heap) : Prop :=
  length s' = length s ∧
  ∀ v t, s !! v = Some t →
    ∃ g, s' !! v = Some (with_grad g t) ∧ iadds (grad t) g.

(** A closure adds to the gradients of children of its node only. *)
Definition closures_local (s : heap) : Prop :=
  ∀ v t x, s !! v = Some t → x ∈ targets (_backward t) → x ∈ _prev t.



(** [closures_local] and [no_grad], as tests. *)
Definition closures_localb (s : heap) : bool :=
  forallb (λ t, forallb (λ x, bool_decide (x ∈ _prev t))
                        (targets (_backward t))) s.


(** The references a closure holds: the operands and the node itself. *)
Definition captured (c : closure) : list nat :=
  match c with
  | lambda_None => []
  | Add_backward a b z | Mul_backward a b z | Matmul_backward a b z
  | Div_backward a b z => [a; b; z]
  | Neg_backward a z | Pow_backward a _ z | Exp_backward a z => [a; z]
  end.

(** The closures of a heap of [n] objects hold references into it. *)
Definition closures_closed (n : nat) (s : heap) : Prop :=
  length s = n ∧
  ∀ v t x, s !! v = Some t → x ∈ captured (_backward t) → x < n.

Definition closures_closedb (s : heap) : bool :=
  forallb (λ t, forallb (λ x, x <? length s) (captured (_backward t))) s.

(** A run that returns, or raises what the array library raised. *)
Definition array_error_only {A} (r : result A) : Prop :=
  match r with
  | Ok _ => True
  | Err e => e = ArrayError
  end.


End Engine.

Abbreviation heap := (list Tensor).

(** ** An executable host: integer arrays

    Arrays of integers of dimension at most two, stored row by row.  Every
    result this host returns is the exact one: an operation whose real
    result is not an integer array (an inexact quotient, a negative power,
    the exponential of a non-zero entry) raises instead.  A [set] of two
    references iterates in one of two orders, chosen by [flip]. *)

Record zarr := ZArr { zshape : list nat; zvals : list Z }.

(** An entrywise operation with the broadcasting of a 0-d operand. *)
Definition broadcast2 (f : Z → Z → option Z) (x y : zarr) : option zarr :=
  if decide (zshape x = zshape y) then
    ZArr (zshape x) <$> mapM (λ p, f p.1 p.2) (zip (zvals x) (zvals y))
  else
    match zshape y, zvals y, zshape x, zvals x with
    | [], [c], _, _ => ZArr (zshape x) <$> mapM (λ a, f a c) (zvals x)
    | _, _, [], [c] => ZArr (zshape y) <$> mapM (f c) (zvals y)
    | _, _, _, _ => None
    end.

Definition z_add (a b : Z) : option Z := Some (a + b)%Z.
Definition z_mul (a b : Z) : option Z := Some (a * b)%Z.

Definition z_truediv (a b : Z) : option Z :=
  if decide (b = 0%Z) then None
  else if decide (a mod b = 0)%Z then Some (a / b)%Z else None.

Definition z_power (a p : Z) : option Z :=
  if decide (p < 0)%Z then None else Some (a ^ p)%Z.

Definition z_exp (a : Z) : option Z :=
  if decide (a = 0%Z) then Some 1%Z else None.

(** [g += x]: the result has the shape of [g]. *)
Definition z_iadd (g x : zarr) : option zarr :=
  if decide (zshape x = zshape g) then
    Some (ZArr (zshape g) (zip_with Z.add (zvals g) (zvals x)))
  else
    match zshape x, zvals x with
    | [], [c] => Some (ZArr (zshape g) (map (λ a, a + c)%Z (zvals g)))
    | _, _ => None
    end.

Definition z_entry (x : zarr) (cols i j : nat) : Z :=
  default 0%Z (zvals x !! (i * cols + j)).

Definition z_transpose (x : zarr) : zarr :=
  match zshape x with
  | [m; k] =>
      ZArr [k; m]
           (flat_map (λ j, map (λ i, z_entry x k i j) (seq 0 m)) (seq 0 k))
  | _ => x
  end.

Definition z_dot (x y : zarr) (k n i j : nat) : Z :=
  foldr (λ l acc, z_entry x k i l * z_entry y n l j + acc)%Z 0%Z (seq 0 k).

Definition z_matmul (x y : zarr) : option zarr :=
  match zshape x, zshape y with
  | [m; k], [k'; n] =>
      if decide (k = k') then
        Some (ZArr [m; n]
                (flat_map (λ i, map (λ j, z_dot x y k n i j) (seq 0 n))
                          (seq 0 m)))
      else None
  | _, _ => None
  end.

Definition z_set_iter (flip : bool) (l : list nat) : list nat :=
  if flip then reverse (remove_dups l) else remove_dups l.

Lemma z_shape_iadd g x g' : z_iadd g x = Some g' → zshape g' = zshape g.
Proof.
  unfold z_iadd. case_decide.
  - by intros [= <-].
  - destruct (zshape x); [|done].
    destruct (zvals x) as [|c [|]]; try done. by intros [= <-].
Qed.

Lemma z_iadd_same_shape g x : zshape x = zshape g → is_Some (z_iadd g x).
Proof. intros E. unfold z_iadd. rewrite decide_True by done. eauto. Qed.

Lemma z_shape_matmul x y m k n :
  zshape x = [m; k] → zshape y = [k; n] →
  ∃ r, z_matmul x y = Some r ∧ zshape r = [m; n].
Proof.
  intros Ex Ey. unfold z_matmul. rewrite Ex, Ey, decide_True by done.
  eauto.
Qed.

Lemma z_shape_transpose x m k :
  zshape x = [m; k] → zshape (z_transpose x) = [k; m].
Proof. intros E. unfold z_transpose. by rewrite E. Qed.

Lemma z_set_iter_NoDup flip l : NoDup (z_set_iter flip l).
Proof.
  destruct flip; simpl; [rewrite reverse_Permutation|];
    apply NoDup_remove_dups.
Qed.

Lemma z_set_iter_elem flip l x : x ∈ z_set_iter flip l ↔ x ∈ l.
Proof.
  destruct flip; simpl; [rewrite elem_of_reverse|];
    apply elem_of_remove_dups.
Qed.

Definition ZHost (flip : bool) : Host := {|
  arr := zarr;
  scalar := Z;
  shape := zshape;
  zeros_like x := ZArr (zshape x) (map (λ _, 0%Z) (zvals x));
  ones_like x := ZArr (zshape x) (map (λ _, 1%Z) (zvals x));
  of_scalar c := ZArr [] [c];
  int_lit z := z;
  sc_sub := Z.sub;
  np_add := broadcast2 z_add;
  np_mul := broadcast2 z_mul;
  np_truediv := broadcast2 z_truediv;
  np_matmul := z_matmul;
  np_power := broadcast2 z_power;
  np_iadd := z_iadd;
  np_negative x := ZArr (zshape x) (map Z.opp (zvals x));
  np_exp x := ZArr (zshape x) <$> mapM z_exp (zvals x);
  transpose := z_transpose;
  set_iter := z_set_iter flip;
  shape_zeros_like _ := eq_refl;
  shape_ones_like _ := eq_refl;
  shape_iadd := z_shape_iadd;
  iadd_same_shape := z_iadd_same_shape;
  shape_matmul := z_shape_matmul;
  shape_transpose := z_shape_transpose;
  set_iter_NoDup := z_set_iter_NoDup flip;
  set_iter_elem := z_set_iter_elem flip
|}.

(** An array holds as many entries as its shape says. *)
Definition z_wf (x : zarr) : Prop :=
  length (zvals x) = foldr Nat.mul 1 (zshape x).

(** ** Example programs on the integer host *)

Definition vec (xs : list Z) : zarr := ZArr [length xs] xs.

Section Examples.
Context (flip : bool).
Let np := ZHost flip.
Existing Instance np.

(** [a = Tensor([2], requires_grad=True); b = Tensor([3],
    requires_grad=True); z = a * b; z.backward()]. *)
Definition mul_example : M unit :=
  a ← leaf (vec [2%Z]) true;
  b ← leaf (vec [3%Z]) true;
  z ← Mul a b;
  backward z.

(** [z1 = a * b; z2 = a + z1; z3 = b + z2] on the same two leaves. *)
Definition shared_graph : M nat :=
  a ← leaf (vec [2%Z]) true;
  b ← leaf (vec [3%Z]) true;
  z1 ← Mul a b;
  z2 ← Add a z1;
  Add b z2.


End Examples.

Abbreviation ztensor := (@Tensor (ZHost false)).
Abbreviation zheap := (list ztensor).

(** The heap a program leaves when it runs from the empty heap. *)
Definition run_heap {A} (m : @M (ZHost false) A) : zheap :=
  match m [] with
  | Ok (_, s) => s
  | Err _ => []
  end.


(** [Tensor([2])], which requests no gradient. *)
Definition lone_leaf : zheap :=
  run_heap (leaf (np := ZHost false) (vec [2%Z]) false).

(** A 2x2 matrix. *)
Definition one_matrix : zheap :=
  run_heap (leaf (np := ZHost false) (ZArr [2; 2] [1; 2; 3; 4]%Z) true).

(** The graph of [shared_graph], before [backward]. *)
Definition shared_heap : zheap := run_heap (shared_graph false).




(** Two leaves, of which the first requests a gradient; then their sum;
    and, with the flags swapped, their sum seeded. *)
Definition two_leaves : zheap :=
  run_heap (leaf (np := ZHost false) (vec [2%Z]) true ;;
            leaf (np := ZHost false) (vec [3%Z]) false).

Definition two_leaves_sum : zheap :=
  run_heap (a ← leaf (np := ZHost false) (vec [2%Z]) true;
            b ← leaf (np := ZHost false) (vec [3%Z]) false;
            Add a b).

Definition frozen_heap : zheap :=
  run_heap (a ← leaf (np := ZHost false) (vec [2%Z]) false;
            b ← leaf (np := ZHost false) (vec [3%Z]) true;
            z ← Add a b;
            seed z).



(** The leaves [[2]] and [[5]]. *)
Definition base_heap : zheap :=
  run_heap (leaf (np := ZHost false) (vec [2%Z]) true).

Definition five_heap : zheap :=
  run_heap (leaf (np := ZHost false) (vec [5%Z]) true).

(** Two leaves that request a gradient. *)
Definition two_grad_leaves : zheap :=
  run_heap (leaf (np := ZHost false) (vec [2%Z]) true ;;
            leaf (np := ZHost false) (vec [3%Z]) true).


(** [x + x], seeded. *)
Definition double_heap : zheap :=
  run_heap (x ← leaf (np := ZHost false) (vec [2%Z]) true;
            z ← Add x x;
            seed z).

(** [-a], seeded, on a leaf that requests a gradient and on one that does
    not. *)
Definition neg_seeded : zheap :=
  run_heap (a ← leaf (np := ZHost false) (vec [2%Z]) true;
            z ← Neg a;
            seed z).

Definition frozen_neg_seeded : zheap :=
  run_heap (a ← leaf (np := ZHost false) (vec [2%Z]) false;
            z ← Neg a;
            seed z).

(** The leaf [[0]]; then [exp] of it, seeded, with and without a gradient
    requested. *)
Definition zero_heap : zheap :=
  run_heap (leaf (np := ZHost false) (vec [0%Z]) true).

Definition exp_seeded : zheap :=
  run_heap (a ← leaf (np := ZHost false) (vec [0%Z]) true;
            z ← Exp a;
            seed z).

Definition frozen_exp_seeded : zheap :=
  run_heap (a ← leaf (np := ZHost false) (vec [0%Z]) false;
            z ← Exp a;
            seed z).

(** The leaves [[6]] and [[-1]]; then their quotient, seeded. *)
Definition quotient_leaves : zheap :=
  run_heap (leaf (np := ZHost false) (vec [6%Z]) true ;;
            leaf (np := ZHost false) (vec [(-1)%Z]) true).

Definition quotient_seeded : zheap :=
  run_heap (a ← leaf (np := ZHost false) (vec [6%Z]) true;
            b ← leaf (np := ZHost false) (vec [(-1)%Z]) true;
            z ← Div a b;
            seed z).

(** [Tensor([2]) - 5]. *)
Definition lone_minus_five : zheap :=
  run_heap (a ← leaf (np := ZHost false) (vec [2%Z]) false;
            __sub__ a (@ONum (ZHost false) 5%Z)).

(** [shared_graph] after [backward] on its root, and after [backward] on
    the product [z1]. *)
Definition shared_after : zheap :=
  run_heap (shared_graph false ≫= backward).

Definition product_after : zheap :=
  run_heap (shared_graph false ≫= λ _, backward 2).




(** Two leaves whose shapes [(2,)] and [(3,)] do not broadcast. *)
Definition ragged_leaves : zheap :=
  run_heap (leaf (np := ZHost false) (vec [1%Z; 2%Z]) true ;;
            leaf (np := ZHost false) (vec [3%Z; 4%Z; 5%Z]) true).

(** ** Running the monad *)

Section Facts.
Context {np : Host}.

Lemma bind_Ok {A B} (m : M A) (k : A → M B) s r :
  (m ≫= k) s = Ok r ↔ ∃ a s1, m s = Ok (a, s1) ∧ k a s1 = Ok r.
Proof.
  unfold mbind, M_bind. destruct (m s) as [[a s1]|e]; split.
  - eauto.
  - by intros (? & ? & [= <- <-] & ?).
  - done.
  - by intros (? & ? & ? & ?).
Qed.

Lemma bind_get {B} v (k : Tensor → M B) s t :
  s !! v = Some t → (get v ≫= k) s = k t s.
Proof. intros E. unfold mbind, M_bind, get. by rewrite E. Qed.

Lemma bind_host {B} o (k : arr → M B) s x :
  o = Some x → (host o ≫= k) s = k x s.
Proof. by intros ->. Qed.

Lemma get_Ok v s t s' : get v s = Ok (t, s') ↔ s !! v = Some t ∧ s' = s.
Proof.
  unfold get. destruct (s !! v); split; try done.
  - by intros [= <- <-].
  - by intros [[= <-] ->].
  - by intros [? _].
Qed.

Lemma host_Ok o s x s' : host o s = Ok (x, s') ↔ o = Some x ∧ s' = s.
Proof.
  destruct o; simpl; split; try done.
  - by intros [= <- <-].
  - by intros [[= <-] ->].
  - by intros [? _].
Qed.

Lemma set_grad_Ok v g s u s' :
  set_grad v g s = Ok (u, s') ↔
  ∃ t, s !! v = Some t ∧ s' = <[v := with_grad g t]> s.
Proof.
  unfold set_grad. destruct (s !! v) as [t|]; split.
  - intros [= <-]. eauto.
  - intros (? & [= <-] & ->). by destruct u.
  - done.
  - by intros (? & ? & _).
Qed.

Lemma iadd_grad_Ok v x s u s' :
  iadd_grad v x s = Ok (u, s') ↔
  ∃ t g, s !! v = Some t ∧ np_iadd (grad t) x = Some g ∧
         s' = <[v := with_grad g t]> s.
Proof.
  unfold iadd_grad. rewrite bind_Ok. split.
  - intros (t & s1 & [E ->]%get_Ok & (g & s2 & [Eg ->]%host_Ok & Hs)%bind_Ok).
    apply set_grad_Ok in Hs as (t' & E' & ->).
    assert (t' = t) as -> by congruence. eauto.
  - intros (t & g & E & Eg & ->). exists t, s. split; [by apply get_Ok|].
    rewrite (bind_host _ _ _ g Eg). apply set_grad_Ok. eauto.
Qed.

Lemma with_grad_id t : with_grad (grad t) t = t.
Proof. by destruct t. Qed.

Lemma with_grad_with_grad g g' t : with_grad g' (with_grad g t) = with_grad g' t.
Proof. done. Qed.

Lemma new_node {B} d ch op rg (c : nat → closure) (k : nat → M B) s :
  (Tensor_init d ch op rg ≫= λ z, set_backward z (c z) ≫= λ _, k z) s =
  k (length s) (s ++ [node d ch op rg (c (length s))]).
Proof.
  unfold mbind, M_bind, Tensor_init, set_backward.
  rewrite lookup_app_r, Nat.sub_diag by done. simpl.
  rewrite insert_app_r_alt, Nat.sub_diag by done. done.
Qed.

End Facts.

Ltac inv_M :=
  repeat match goal with
  | H : (get _ ≫= _) _ = Ok _ |- _ =>
      let t := fresh "t" in let s := fresh "s" in let E := fresh "E" in
      apply bind_Ok in H as (t & s & [E ->]%get_Ok & H)
  | H : (host _ ≫= _) _ = Ok _ |- _ =>
      let x := fresh "x" in let s := fresh "s" in let E := fresh "E" in
      apply bind_Ok in H as (x & s & [E ->]%host_Ok & H)
  | H : raise _ _ = Ok _ |- _ => discriminate H
  end.

Section Shapes.
Context {np : Host}.

(** The constructors with two operands share their shape, and so do the
    ones with one operand: one lemma for each shape says when the
    constructor returns and which object it has allocated then. *)
Lemma binary_Ok (f : arr → arr → option arr) op
    (cl : nat → nat → nat → closure) a b s z s' :
  (ta ← get a; tb ← get b;
   let rg := requires_grad ta || requires_grad tb in
   d ← host (f (data ta) (data tb));
   z ← Tensor_init d [a; b] op rg;
   set_backward z (cl a b z) ;;
   mret z) s = Ok (z, s') ↔
  ∃ ta tb d, s !! a = Some ta ∧ s !! b = Some tb ∧
    f (data ta) (data tb) = Some d ∧ z = length s ∧
    s' = s ++ [node d [a; b] op (requires_grad ta || requires_grad tb)
                    (cl a b (length s))].
Proof.
  split.
  - intros Hrun. inv_M. cbv zeta in Hrun. inv_M.
    rewrite (new_node _ _ _ _ (cl a b) mret) in Hrun.
    injection Hrun as <- <-. eauto 10.
  - intros (ta & tb & d & Ea & Eb & Ed & -> & ->).
    rewrite (bind_get _ _ _ _ Ea), (bind_get _ _ _ _ Eb). cbv zeta.
    rewrite (bind_host _ _ _ _ Ed).
    by rewrite (new_node _ _ _ _ (cl a b) mret).
Qed.

Lemma unary_Ok (f : arr → option arr) op (cl : nat → nat → closure)
    a s z s' :
  (ta ← get a;
   d ← host (f (data ta));
   z ← Tensor_init d [a] op (requires_grad ta);
   set_backward z (cl a z) ;;
   mret z) s = Ok (z, s') ↔
  ∃ ta d, s !! a = Some ta ∧ f (data ta) = Some d ∧ z = length s ∧
    s' = s ++ [node d [a] op (requires_grad ta) (cl a (length s))].
Proof.
  split.
  - intros Hrun. inv_M.
    rewrite (new_node _ _ _ _ (cl a) mret) in Hrun.
    injection Hrun as <- <-. eauto 10.
  - intros (ta & d & Ea & Ed & -> & ->).
    rewrite (bind_get _ _ _ _ Ea), (bind_host _ _ _ _ Ed).
    by rewrite (new_node _ _ _ _ (cl a) mret).
Qed.

Lemma Add_Ok a b s z s' :
  Add a b s = Ok (z, s') ↔
  ∃ ta tb d, s !! a = Some ta ∧ s !! b = Some tb ∧
    np_add (data ta) (data tb) = Some d ∧ z = length s ∧
    s' = s ++ [node d [a; b] "+" (requires_grad ta || requires_grad tb)
                    (Add_backward a b (length s))].
Proof. exact (binary_Ok np_add "+" Add_backward a b s z s'). Qed.

Lemma Mul_Ok a b s z s' :
  Mul a b s = Ok (z, s') ↔
  ∃ ta tb d, s !! a = Some ta ∧ s !! b = Some tb ∧
    np_mul (data ta) (data tb) = Some d ∧ z = length s ∧
    s' = s ++ [node d [a; b] "*" (requires_grad ta || requires_grad tb)
                    (Mul_backward a b (length s))].
Proof. exact (binary_Ok np_mul "*" Mul_backward a b s z s'). Qed.

Lemma Matmul_Ok a b s z s' :
  Matmul a b s = Ok (z, s') ↔
  ∃ ta tb d, s !! a = Some ta ∧ s !! b = Some tb ∧
    np_matmul (data ta) (data tb) = Some d ∧ z = length s ∧
    s' = s ++ [node d [a; b] "@" (requires_grad ta || requires_grad tb)
                    (Matmul_backward a b (length s))].
Proof. exact (binary_Ok np_matmul "@" Matmul_backward a b s z s'). Qed.

Lemma Div_Ok a b s z s' :
  Div a b s = Ok (z, s') ↔
  ∃ ta tb d, s !! a = Some ta ∧ s !! b = Some tb ∧
    np_truediv (data ta) (data tb) = Some d ∧ z = length s ∧
    s' = s ++ [node d [a; b] "*" (requires_grad ta || requires_grad tb)
                    (Div_backward a b (length s))].
Proof. exact (binary_Ok np_truediv "*" Div_backward a b s z s'). Qed.

Lemma Neg_Ok a s z s' :
  Neg a s = Ok (z, s') ↔
  ∃ ta d, s !! a = Some ta ∧
    np_mul (data ta) (of_scalar (int_lit (-1))) = Some d ∧ z = length s ∧
    s' = s ++ [node d [a] "neg" (requires_grad ta)
                    (Neg_backward a (length s))].
Proof.
  exact (unary_Ok (λ d, np_mul d (of_scalar (int_lit (-1)))) "neg"
                  Neg_backward a s z s').
Qed.

Lemma Pow_Ok a p s z s' :
  Pow a p s = Ok (z, s') ↔
  ∃ ta d, s !! a = Some ta ∧
    np_power (data ta) (of_scalar p) = Some d ∧ z = length s ∧
    s' = s ++ [node d [a] "pow" (requires_grad ta)
                    (Pow_backward a p (length s))].
Proof.
  exact (unary_Ok (λ d, np_power d (of_scalar p)) "pow"
                  (λ a z, Pow_backward a p z) a s z s').
Qed.

Lemma Exp_Ok a s z s' :
  Exp a s = Ok (z, s') ↔
  ∃ ta d, s !! a = Some ta ∧ np_exp (data ta) = Some d ∧ z = length s ∧
    s' = s ++ [node d [a] "exp" (requires_grad ta)
                    (Exp_backward a (length s))].
Proof. exact (unary_Ok np_exp "exp" Exp_backward a s z s'). Qed.

Lemma coerce_tensor {B} t (k : nat → M B) s :
  (coerce (OTensor t) ≫= k) s = k t s.
Proof. done. Qed.

Lemma coerce_num {B} c (k : nat → M B) s :
  (coerce (ONum c) ≫= k) s = k (length s) (s ++ [literal c]).
Proof. done. Qed.

End Shapes.

(** ** The constructors *)

Section Constructors.
Context {np : Host}.

(** C6: the node a constructor returns is the one new object of the heap,
    and its [requires_grad] is the OR of the flags of the two operands, or
    the flag of the operand when there is one.  The operands keep their
    flags, so the flag goes on to whatever is built on the result. *)
Theorem requires_grad_is_or c s z s' :
  apply_op c s = Ok (z, s') →
  ∃ tz, s' = s ++ [tz] ∧ z = length s ∧
    requires_grad tz =
      match c with
      | CAdd a b | CMul a b | CMatmul a b | CDiv a b => flag s a || flag s b
      | CNeg a | CPow a _ | CExp a => flag s a
      end.
Proof.
  unfold flag. destruct c; simpl; intros Hrun.
  1: apply Add_Ok in Hrun as (ta & tb & d & -> & -> & _ & -> & ->).
  2: apply Mul_Ok in Hrun as (ta & tb & d & -> & -> & _ & -> & ->).
  3: apply Neg_Ok in Hrun as (ta & d & -> & _ & -> & ->).
  4: apply Matmul_Ok in Hrun as (ta & tb & d & -> & -> & _ & -> & ->).
  5: apply Pow_Ok in Hrun as (ta & d & -> & _ & -> & ->).
  6: apply Div_Ok in Hrun as (ta & tb & d & -> & -> & _ & -> & ->).
  7: apply Exp_Ok in Hrun as (ta & d & -> & _ & -> & ->).
  all: eexists; split; [reflexivity|]; split; reflexivity.
Qed.

(** C8, as amended: [+], [*], [-] and [/] on a numeric literal first
    allocate a leaf that holds the literal (no children, no gradient
    requested, a zero gradient, the empty closure) and then do what they do
    on that leaf. *)
Theorem literal_is_coerced o self c s :
  o ≠ OpMatmul →
  operator o self (ONum c) s =
    operator o self (OTensor (length s)) (s ++ [literal c]) ∧
  data (literal c) = of_scalar c ∧
  grad (literal c) = zeros_like (of_scalar c) ∧
  _prev (literal c) = [] ∧
  _backward (literal c) = lambda_None ∧
  requires_grad (literal c) = false.
Proof.
  intros Ho. split; [by destruct o|]. repeat split.
  simpl. destruct (set_iter []) as [|x l] eqn:E; [done|].
  assert (x ∈ set_iter []) as Hx by (rewrite E; left).
  apply (proj1 (set_iter_elem _ _)) in Hx. by apply elem_of_nil in Hx.
Qed.


Lemma iadd_grad_run v x s t g :
  s !! v = Some t → np_iadd (grad t) x = Some g →
  iadd_grad v x s = Ok (tt, <[v := with_grad g t]> s).
Proof. intros. apply iadd_grad_Ok. eauto. Qed.

Lemma bind_unit {B} (m : M unit) (k : unit → M B) s s1 :
  m s = Ok (tt, s1) → (m ≫= k) s = k tt s1.
Proof. intros E. unfold mbind, M_bind. by rewrite E. Qed.


(** What the closure of [Mul] does on two distinct operands that both
    require a gradient: the update of [b.grad] multiplies [z.grad] by the
    gradient of [a] as the first update has just left it. *)
Lemma call_Mul_backward a b z s ta tb tz x ga y gb :
  s !! a = Some ta → s !! b = Some tb → s !! z = Some tz →
  a ≠ b → z ≠ a →
  requires_grad ta = true → requires_grad tb = true →
  np_mul (data tb) (grad tz) = Some x →
  np_iadd (grad ta) x = Some ga →
  np_mul ga (grad tz) = Some y →
  np_iadd (grad tb) y = Some gb →
  call (Mul_backward a b z) s =
    Ok (tt, <[b := with_grad gb tb]> (<[a := with_grad ga ta]> s)).
Proof.
  intros Ea Eb Ez Hab Hza Ra Rb Ex Ega Ey Egb. simpl.
  rewrite (bind_get _ _ _ _ Ea), Ra.
  rewrite (bind_unit _ _ s (<[a := with_grad ga ta]> s)).
  - rewrite (bind_get _ _ _ tb), Rb by by rewrite list_lookup_insert_ne.
    simpl. rewrite (bind_get _ _ _ (with_grad ga ta)).
    2: { apply list_lookup_insert_eq. by eapply lookup_lt_Some. }
    rewrite (bind_get _ _ _ tz) by by rewrite list_lookup_insert_ne.
    simpl. rewrite (bind_host _ _ _ _ Ey).
    apply iadd_grad_run; [by rewrite list_lookup_insert_ne|done].
  - simpl. rewrite (bind_get _ _ _ _ Eb), (bind_get _ _ _ _ Ez).
    rewrite (bind_host _ _ _ _ Ex). by apply iadd_grad_run.
Qed.

(** C10, for any host: [c - t] builds the leaf for [c], its negation and
    the sum [t + (-c)], whose data is [t.data + (c * -1)]: [t] is the left
    operand of the sum. *)
Lemma rsub_run t c s tt nc d :
  s !! t = Some tt →
  np_mul (of_scalar c) (of_scalar (int_lit (-1))) = Some nc →
  np_add (data tt) nc = Some d →
  __rsub__ t (ONum c) s =
    Ok (S (S (length s)),
        s ++ [literal c;
              node nc [length s] "neg" false
                   (Neg_backward (length s) (S (length s)));
              node d [t; S (length s)] "+" (requires_grad tt || false)
                   (Add_backward t (S (length s)) (S (S (length s))))]).
Proof.
  intros Et Enc Ed. unfold __rsub__, __sub__. rewrite coerce_num.
  set (s1 := s ++ [literal c]).
  set (s2 := s1 ++ [node nc [length s] "neg" false
                      (Neg_backward (length s) (S (length s)))]).
  assert (Neg (length s) s1 = Ok (S (length s), s2)) as En.
  { apply Neg_Ok. exists (literal c), nc. unfold s1.
    rewrite lookup_app_r, Nat.sub_diag by done.
    rewrite length_app. simpl. rewrite Nat.add_1_r. done. }
  unfold __neg__.
  assert (∀ k : nat → M nat, (Neg (length s) ≫= k) s1 = k (S (length s)) s2)
    as ->.
  { intros k. unfold mbind, M_bind. by rewrite En. }
  unfold __add__. rewrite coerce_tensor.
  replace (s ++ _) with
    (s2 ++ [node d [t; S (length s)] "+" (requires_grad tt || false)
              (Add_backward t (S (length s)) (S (S (length s))))]).
  2: { unfold s2, s1. by rewrite <- !app_assoc. }
  apply Add_Ok.
  exists tt, (node nc [length s] "neg" false
                (Neg_backward (length s) (S (length s)))), d.
  unfold s2, s1. repeat split.
  - rewrite !lookup_app_l; [done| |]; rewrite ?length_app; simpl;
      apply lookup_lt_Some in Et; lia.
  - rewrite lookup_app_r; rewrite !length_app; simpl; [|lia].
    by replace (S (length s) - (length s + 1)) with 0 by lia.
  - done.
  - rewrite !length_app. simpl. lia.
  - rewrite !length_app. simpl.
    by replace (length s + 1 + 1) with (S (S (length s))) by lia.
Qed.

End Constructors.

(** ** The heaps the constructors build *)

Section Invariant.
Context {np : Host}.
Implicit Types (s : heap).

Lemma acyclic_nil : acyclic [].
Proof. intros v c (t & Et & _). by rewrite lookup_nil in Et. Qed.

Lemma closures_older_nil : closures_older [].
Proof. intros v t x Et. by rewrite lookup_nil in Et. Qed.

Lemma acyclic_snoc s t :
  acyclic s → (∀ c, c ∈ _prev t → c < length s) → acyclic (s ++ [t]).
Proof.
  intros Hacyc Ht v c (t' & Et' & Hc).
  destruct (decide (v < length s)) as [Hlt|Hge].
  - rewrite lookup_app_l in Et' by done. apply Hacyc. by exists t'.
  - rewrite lookup_app_r in Et' by lia.
    apply list_lookup_singleton_Some in Et' as [Hv <-].
    specialize (Ht c Hc). lia.
Qed.

Lemma closures_older_snoc s t :
  closures_older s → (∀ x, x ∈ targets (_backward t) → x < length s) →
  closures_older (s ++ [t]).
Proof.
  intros Hold Ht v t' x Et' Hx.
  destruct (decide (v < length s)) as [Hlt|Hge].
  - rewrite lookup_app_l in Et' by done. by eapply Hold.
  - rewrite lookup_app_r in Et' by lia.
    apply list_lookup_singleton_Some in Et' as [Hv <-].
    specialize (Ht x Hx). lia.
Qed.

(** A leaf and the result of a constructor refer to older nodes only: the
    heaps built through the constructors are the ones [backward] is
    specified on. *)
Lemma leaf_older d rg s z s' :
  leaf d rg s = Ok (z, s') →
  acyclic s → closures_older s → acyclic s' ∧ closures_older s'.
Proof.
  intros [= <- <-] Hacyc Hold. split.
  - apply acyclic_snoc; [done|]. cbn. intros c Hc.
    apply (proj1 (set_iter_elem _ _)) in Hc. by apply elem_of_nil in Hc.
  - apply closures_older_snoc; [done|]. cbn. intros x Hx.
    by apply elem_of_nil in Hx.
Qed.

Lemma node_older s d ch op rg c :
  acyclic s → closures_older s →
  (∀ x, x ∈ ch → x < length s) → (∀ x, x ∈ targets c → x ∈ ch) →
  acyclic (s ++ [node d ch op rg c]) ∧
  closures_older (s ++ [node d ch op rg c]).
Proof.
  intros Hacyc Hold Hch Hc. split.
  - apply acyclic_snoc; [done|]. cbn. intros x Hx.
    by apply Hch, set_iter_elem.
  - apply closures_older_snoc; [done|]. cbn. intros x Hx. by apply Hch, Hc.
Qed.

Lemma apply_op_older c s z s' :
  apply_op c s = Ok (z, s') →
  acyclic s → closures_older s → acyclic s' ∧ closures_older s'.
Proof.
  intros Hrun Hacyc Hold. destruct c; cbn [apply_op] in Hrun.
  1: apply Add_Ok in Hrun as (ta & tb & d & Ea & Eb & _ & -> & ->).
  2: apply Mul_Ok in Hrun as (ta & tb & d & Ea & Eb & _ & -> & ->).
  3: apply Neg_Ok in Hrun as (ta & d & Ea & _ & -> & ->).
  4: apply Matmul_Ok in Hrun as (ta & tb & d & Ea & Eb & _ & -> & ->).
  5: apply Pow_Ok in Hrun as (ta & d & Ea & _ & -> & ->).
  6: apply Div_Ok in Hrun as (ta & tb & d & Ea & Eb & _ & -> & ->).
  7: apply Exp_Ok in Hrun as (ta & d & Ea & _ & -> & ->).
  all: apply node_older; [done|done| |by cbn].
  all: intros x Hx; repeat (apply elem_of_cons in Hx as [->|Hx]);
    try (by eapply lookup_lt_Some); by apply elem_of_nil in Hx.
Qed.

End Invariant.

(** ** The order of the backward pass *)

Section Order.
Context {np : Host} (s : heap).

Lemma topo_inv_mono b b' st : b' ≤ b → topo_inv s b st → topo_inv s b' st.
Proof.
  intros Hb (? & ? & ? & Hlow). repeat split; try done.
  intros u Hu. apply Hlow. lia.
Qed.

Lemma children_before_snoc l v :
  children_before s l → (∀ c, child s v c → c ∈ l) →
  children_before s (l ++ [v]).
Proof.
  intros Hl Hv i u c Hi Hc.
  destruct (decide (i < length l)) as [Hlt|Hge].
  - rewrite lookup_app_l in Hi by done.
    rewrite take_app_le by lia. by eapply Hl.
  - rewrite lookup_app_r in Hi by lia.
    apply list_lookup_singleton_Some in Hi as [Hi <-].
    rewrite take_app_length' by lia. by apply Hv.
Qed.

Lemma children_before_closed l v c :
  children_before s l → v ∈ l → child s v c → c ∈ l.
Proof.
  intros Hl [i Hi]%list_elem_of_lookup Hc.
  specialize (Hl _ _ _ Hi Hc). apply elem_of_take in Hl as (j & Hj & _).
  apply list_elem_of_lookup. eauto.
Qed.

Lemma topo_next_nil st : topo_next st [] = st.
Proof.
  destruct st as [vis topo]. unfold topo_next. simpl.
  by rewrite app_nil_r, (right_id_L ∅ (∪)).
Qed.

Lemma topo_next_app st new1 new2 :
  topo_next (topo_next st new1) new2 = topo_next st (new1 ++ new2).
Proof.
  unfold topo_next. simpl. rewrite app_assoc, list_to_set_app_L.
  by rewrite (assoc_L (∪)).
Qed.

Lemma topo_inv_next b st new :
  topo_inv s b st → topo_adds s st new → topo_inv s b (topo_next st new).
Proof.
  intros (_ & _ & Hsub & Hlow) (Hnd & Hcb & _).
  repeat split; simpl; try done.
  - intros u [Hu|Hu]%elem_of_app; apply elem_of_union.
    + left. by apply Hsub.
    + right. by apply elem_of_list_to_set.
  - intros u Hb [Hu|Hu]%elem_of_union; apply elem_of_app.
    + left. by apply Hlow.
    + right. by apply elem_of_list_to_set in Hu.
Qed.

Lemma topo_adds_nil b st : topo_inv s b st → topo_adds s st [].
Proof.
  intros (? & ? & _). unfold topo_adds. rewrite app_nil_r.
  split; [done|]. split; [done|]. intros u Hu. by apply elem_of_nil in Hu.
Qed.

Lemma topo_adds_app st new1 new2 :
  topo_adds s st new1 → topo_adds s (topo_next st new1) new2 →
  topo_adds s st (new1 ++ new2).
Proof.
  intros (_ & _ & Hf1) (Hnd & Hcb & Hf2). unfold topo_next in *.
  cbn [fst snd] in *. rewrite <- app_assoc in Hnd, Hcb.
  split; [done|]. split; [done|].
  intros u Hu. apply elem_of_app in Hu as [Hu|Hu]; [by apply Hf1|].
  apply Hf2 in Hu. intros Hin. apply Hu. apply elem_of_union. by left.
Qed.

Lemma for_each_build_topo (body : nat → gset nat * list nat →
    result (gset nat * list nat)) v :
  acyclic s →
  (∀ c st, child s v c → topo_inv s (S c) st →
     ∃ new, body c st = Ok (topo_next st new) ∧ topo_adds s st new ∧
       c ∈ st.2 ++ new ∧ (∀ u, u ∈ new → reachable s c u)) →
  ∀ cs st, (∀ c, c ∈ cs → child s v c) → topo_inv s v st →
  ∃ new, for_each cs body st = Ok (topo_next st new) ∧
    topo_adds s st new ∧ (∀ c, c ∈ cs → c ∈ st.2 ++ new) ∧
    (∀ u, u ∈ new → reachable s v u).
Proof.
  intros Hacyc Hbody. induction cs as [|c cs IHcs]; intros st Hcs Hinv.
  { exists []. rewrite topo_next_nil. split; [done|].
    split; [by eapply topo_adds_nil|].
    split; intros u Hu; by apply elem_of_nil in Hu. }
  assert (child s v c) as Hc by (apply Hcs; left).
  destruct (Hbody c st Hc) as (new1 & E1 & Hadd1 & Hc1 & Hr1).
  { eapply topo_inv_mono; [|exact Hinv]. apply Hacyc in Hc. lia. }
  destruct (IHcs (topo_next st new1)) as (new2 & E2 & Hadd2 & Hc2 & Hr2).
  { intros c' Hc'. apply Hcs. by right. }
  { by apply topo_inv_next. }
  exists (new1 ++ new2). cbn [for_each]. rewrite E1, E2, topo_next_app.
  split; [done|]. split; [by apply topo_adds_app|].
  unfold topo_next in Hc2. cbn [fst snd] in Hc2.
  rewrite <- app_assoc in Hc2. split.
  - intros c' Hc'. apply elem_of_cons in Hc' as [->|Hc']; [|by apply Hc2].
    rewrite app_assoc. apply elem_of_app. by left.
  - intros u Hu. apply elem_of_app in Hu as [Hu|Hu]; [|by apply Hr2].
    eapply rtc_l; [exact Hc|]. by apply Hr1.
Qed.

Lemma build_topo_spec fuel :
  acyclic s →
  ∀ v st, v < fuel → v < length s → topo_inv s (S v) st →
  ∃ new, build_topo s fuel v st = Ok (topo_next st new) ∧
    topo_adds s st new ∧ v ∈ st.2 ++ new ∧
    (∀ u, u ∈ new → reachable s v u).
Proof.
  intros Hacyc. induction fuel as [|fuel IH]; intros v st Hf Hv Hinv; [lia|].
  cbn [build_topo]. destruct (decide (v ∈ st.1)) as [Hin|Hnin].
  { exists []. rewrite topo_next_nil. split; [done|].
    split; [by eapply topo_adds_nil|].
    destruct Hinv as (_ & _ & _ & Hlow). rewrite app_nil_r.
    split; [apply Hlow; [lia|done]|].
    intros u Hu. by apply elem_of_nil in Hu. }
  destruct (s !! v) as [t|] eqn:Et.
  2: { apply lookup_ge_None in Et. lia. }
  destruct Hinv as (Hnd & Hcb & Hsub & Hlow).
  destruct (for_each_build_topo (build_topo s fuel) v Hacyc) with
    (cs := _prev t) (st := ({[v]} ∪ st.1, st.2))
    as (new & E & (Hnd' & Hcb' & Hfresh) & Hch & Hr).
  { intros c st0 Hc Hinv0. apply Hacyc in Hc. apply IH; [lia|lia|done]. }
  { intros c Hc. by exists t. }
  { split; [done|]. split; [done|]. cbn [fst snd]. split.
    - intros u Hu. apply elem_of_union. right. by apply Hsub.
    - intros u Hu Hin. apply elem_of_union in Hin as [Hin|Hin].
      + apply elem_of_singleton in Hin. lia.
      + apply Hlow; [lia|done]. }
  cbn [fst snd] in *. rewrite E. unfold topo_next at 1. cbn [fst snd].
  exists (new ++ [v]).
  assert (v ∉ st.2 ++ new) as Hv'.
  { intros Hin. apply elem_of_app in Hin as [Hin|Hin]; [by apply Hnin, Hsub|].
    apply Hfresh in Hin. apply Hin, elem_of_union. left.
    by apply elem_of_singleton. }
  unfold topo_next, topo_adds. cbn [fst snd]. rewrite !app_assoc.
  split.
  { f_equal. f_equal. apply set_eq. intros u.
    rewrite !elem_of_union, !elem_of_list_to_set, elem_of_app.
    rewrite list_elem_of_singleton, elem_of_singleton. tauto. }
  split; [split; [|split]|split].
  - apply NoDup_app. split; [done|]. split; [|apply NoDup_singleton].
    intros u Hu Hu'. apply list_elem_of_singleton in Hu' as ->. done.
  - apply children_before_snoc; [done|].
    intros c (t' & Et' & Hc). apply Hch. congruence.
  - intros u Hu. apply elem_of_app in Hu as [Hu|Hu].
    + apply Hfresh in Hu. intros Hin. apply Hu, elem_of_union. by right.
    + apply list_elem_of_singleton in Hu as ->. done.
  - apply elem_of_app. right. apply list_elem_of_singleton. done.
  - intros u Hu. apply elem_of_app in Hu as [Hu|Hu]; [by apply Hr|].
    apply list_elem_of_singleton in Hu as ->. apply rtc_refl.
Qed.

Lemma acyclicb_sound : acyclicb s = true → acyclic s.
Proof.
  unfold acyclicb. rewrite forallb_forall. intros Hall v c (t & Et & Hc).
  specialize (Hall (v, t)). rewrite forallb_forall in Hall.
  apply Nat.ltb_lt, (Hall (proj1 (list_elem_of_In _ _)
    (proj2 (elem_of_lookup_imap pair s (v, t)) (ex_intro _ v (ex_intro _ t
      (conj eq_refl Et))))) c).
  by apply list_elem_of_In.
Qed.

Lemma reachable_in_closed l root v :
  children_before s l → root ∈ l → reachable s root v → v ∈ l.
Proof.
  intros Hcb Hroot Hr. induction Hr as [|x y z Hxy _ IH]; [done|].
  apply IH. by eapply children_before_closed.
Qed.

(** The order [backward] replays, on a heap whose nodes are older than
    their parents. *)
Lemma topo_order_spec root :
  acyclic s → root < length s →
  ∃ topo,
    topo_order s root = Ok topo ∧
    NoDup topo ∧
    (∀ v, v ∈ topo ↔ reachable s root v) ∧
    children_before s topo.
Proof.
  intros Hacyc Hroot.
  destruct (build_topo_spec (S (length s)) Hacyc root (∅, []))
    as (topo & E & (Hnd & Hcb & _) & Hin & Hr); [lia|done| |].
  { split; [apply NoDup_nil_2|]. split; [|split].
    - intros i v c Hi. cbn [snd] in Hi. by rewrite lookup_nil in Hi.
    - intros u Hu. cbn [snd] in Hu. by apply elem_of_nil in Hu.
    - intros u _ Hu. cbn [fst] in Hu. by apply elem_of_empty in Hu. }
  cbn [fst snd] in *. rewrite app_nil_l in *.
  exists topo. split; [unfold topo_order; by rewrite E|].
  split; [done|]. split; [|done].
  intros v. split; [apply Hr|]. by apply reachable_in_closed.
Qed.

Lemma backward_run root topo t :
  topo_order s root = Ok topo → s !! root = Some t →
  backward root s =
    call_all (reverse topo) (<[root := with_grad (ones_like (data t)) t]> s).
Proof.
  intros Etopo Et. unfold backward. rewrite Etopo. unfold seed.
  apply (bind_unit _ (λ _, call_all (reverse topo))).
  rewrite (bind_get _ _ _ _ Et). unfold set_grad. by rewrite Et.
Qed.


End Order.

(** ** What a closure may change *)

Section Frame.
Context {np : Host}.
Implicit Types (s : heap) (W : nat → Prop).

Lemma grad_only_refl W s : grad_only W s s.
Proof.
  split; [done|]. intros v t Et. exists (grad t).
  by rewrite with_grad_id.
Qed.

Lemma grad_only_trans W s1 s2 s3 :
  grad_only W s1 s2 → grad_only W s2 s3 → grad_only W s1 s3.
Proof.
  intros [L12 H12] [L23 H23]. split; [congruence|].
  intros v t Et. destruct (H12 v t Et) as (g & Eg & Hg).
  destruct (H23 v _ Eg) as (g' & Eg' & Hg'). exists g'.
  split; [done|]. intros HW. rewrite (Hg' HW). simpl. by apply Hg.
Qed.

Lemma grad_only_mono W W' s s' :
  (∀ v, W v → W' v) → grad_only W s s' → grad_only W' s s'.
Proof.
  intros HW [L Hs]. split; [done|]. intros v t Et.
  destruct (Hs v t Et) as (g & Eg & Hg). exists g. split; [done|].
  intros HW'. apply Hg. intros Hv. by apply HW', HW.
Qed.

Lemma grad_only_lookup W s s' v t' :
  grad_only W s s' → s' !! v = Some t' →
  ∃ t, s !! v = Some t ∧ t' = with_grad (grad t') t.
Proof.
  intros [L Hs] Et'.
  destruct (lookup_lt_is_Some_2 s v) as [t Et].
  { rewrite <- L. by eapply lookup_lt_Some. }
  exists t. split; [done|]. destruct (Hs v t Et) as (g & Eg & _).
  rewrite Et' in Eg. by injection Eg as ->.
Qed.

Lemma grad_only_flag W s s' v : grad_only W s s' → flag s' v = flag s v.
Proof.
  intros [L Hs]. unfold flag. destruct (s !! v) as [t|] eqn:Et.
  - destruct (Hs v t Et) as (g & -> & _). done.
  - apply lookup_ge_None in Et. rewrite <- L in Et.
    apply lookup_ge_None in Et. by rewrite Et.
Qed.

Lemma grad_only_insert W s s1 v t1 g :
  grad_only W s s1 → s1 !! v = Some t1 → W v →
  grad_only W s (<[v := with_grad g t1]> s1).
Proof.
  intros [L Hs] Et1 HW. split; [by rewrite length_insert|].
  intros u t Et. destruct (Hs u t Et) as (g0 & Eg0 & Hg0).
  destruct (decide (u = v)) as [->|Hne].
  - exists g. rewrite list_lookup_insert_eq by by eapply lookup_lt_Some.
    split; [|done]. rewrite Et1 in Eg0. by injection Eg0 as ->.
  - exists g0. by rewrite list_lookup_insert_ne.
Qed.

Lemma when_Ok c (m : M unit) s u s' :
  when c m s = Ok (u, s') →
  (c = true ∧ m s = Ok (u, s')) ∨ (c = false ∧ s' = s).
Proof. destruct c; simpl; [by left|]. intros [= <- <-]. by right. Qed.

(** One conditional update of a closure: [if v.requires_grad: v.grad += x],
    where computing [x] leaves the heap as it is. *)
Lemma update_grad_only W s0 s v (t : Tensor) (m : M unit) u s' :
  grad_only W s0 s → s !! v = Some t →
  (requires_grad t = true → W v) →
  (∀ s1 u1, m s = Ok (u1, s1) → ∃ g, s1 = <[v := with_grad g t]> s) →
  when (requires_grad t) m s = Ok (u, s') →
  grad_only W s0 s'.
Proof.
  intros H0 Et HW Hm [[Hc E]|[_ ->]]%when_Ok; [|done].
  destruct (Hm _ _ E) as (g & ->). apply grad_only_insert; auto.
Qed.

Lemma flag_lookup s v t : s !! v = Some t → flag s v = requires_grad t.
Proof. intros E. unfold flag. by rewrite E. Qed.

End Frame.

Ltac body_inv Et :=
  let Hm := fresh "Hm" in
  intros ? ? Hm; inv_M;
  let Et' := fresh "Et" in
  apply iadd_grad_Ok in Hm as (? & ? & Et' & _ & ->);
  eexists; rewrite Et in Et'; by injection Et' as <-.

Ltac unary_inv :=
  let Hrun := fresh "Hrun" in let ta := fresh "ta" in
  let Ea := fresh "Ea" in
  intros Hrun;
  apply bind_Ok in Hrun as (ta & ? & [Ea ->]%get_Ok & Hrun);
  eapply (update_grad_only _ _ _ _ ta); [apply grad_only_refl|exact Ea| |
    |exact Hrun];
  [intros Hrg; split; [left|by rewrite (flag_lookup _ _ _ Ea)]
  |body_inv Ea].

Ltac binary_inv :=
  let Hrun := fresh "Hrun" in let ta := fresh "ta" in
  let tb := fresh "tb" in let s1 := fresh "s" in
  let Ea := fresh "Ea" in let Eb := fresh "Eb" in let E1 := fresh "E" in
  let H1 := fresh "H" in
  intros Hrun;
  apply bind_Ok in Hrun as (ta & ? & [Ea ->]%get_Ok & Hrun);
  apply bind_Ok in Hrun as ([] & s1 & E1 & Hrun);
  apply bind_Ok in Hrun as (tb & ? & [Eb ->]%get_Ok & Hrun);
  match goal with |- grad_only ?W ?s _ =>
    assert (grad_only W s s1) as H1;
    [eapply (update_grad_only _ _ _ _ ta);
       [apply grad_only_refl|exact Ea| | |exact E1];
       [intros Hrg; split; [left|by rewrite (flag_lookup _ _ _ Ea)]
       |body_inv Ea]
    |eapply (update_grad_only _ _ _ _ tb); [exact H1|exact Eb| | |exact Hrun];
       [intros Hrg; split; [right; left|];
        by rewrite <- (grad_only_flag _ _ _ _ H1), (flag_lookup _ _ _ Eb)
       |body_inv Eb]]
  end.

Section Closures.
Context {np : Host}.
Implicit Types (s : heap) (W : nat → Prop).

Lemma call_grad_only c s u s' :
  call c s = Ok (u, s') → grad_only (writes c s) s s'.
Proof.
  destruct c; cbn [call].
  - intros [= <- <-]. apply grad_only_refl.
  - binary_inv.
  - binary_inv.
  - unary_inv.
  - binary_inv.
  - unary_inv.
  - binary_inv.
  - unary_inv.
Qed.

End Closures.

(** ** What the backward pass may change *)

Section Replay.
Context {np : Host}.
Implicit Types (s : heap) (W : nat → Prop).

Lemma written_grad_only W l s s1 v :
  grad_only W s s1 → written l s1 v → written l s v.
Proof.
  intros H1 (n & t1 & Hn & Et1 & Hx & Hf).
  destruct (grad_only_lookup _ _ _ _ _ H1 Et1) as (t & Et & Ht1).
  exists n, t. split; [done|]. split; [done|]. split.
  - by rewrite Ht1 in Hx.
  - by rewrite <- (grad_only_flag _ _ _ _ H1).
Qed.

Lemma call_all_grad_only l s u s' :
  call_all l s = Ok (u, s') → grad_only (written l s) s s'.
Proof.
  revert s. induction l as [|n l IH]; intros s; cbn [call_all].
  - intros [= <- <-]. apply grad_only_refl.
  - intros Hrun.
    apply bind_Ok in Hrun as (t & ? & [Et ->]%get_Ok & Hrun).
    apply bind_Ok in Hrun as ([] & s1 & E1 & Hrun).
    apply call_grad_only in E1. apply IH in Hrun.
    eapply grad_only_trans.
    + eapply grad_only_mono; [|exact E1].
      intros v Hv. exists n, t. split; [left|]. done.
    + eapply grad_only_mono; [|exact Hrun].
      intros v Hv. eapply written_grad_only in Hv; [|exact E1].
      destruct Hv as (n' & t' & Hn' & Hv). exists n', t'.
      split; [by right|done].
Qed.

Lemma seed_Ok root s u s' :
  seed root s = Ok (u, s') →
  ∃ t, s !! root = Some t ∧ s' = <[root := with_grad (ones_like (data t)) t]> s.
Proof.
  unfold seed. intros Hrun.
  apply bind_Ok in Hrun as (t & ? & [Et ->]%get_Ok & Hrun).
  apply set_grad_Ok in Hrun as (t' & Et' & ->). exists t.
  split; [done|]. congruence.
Qed.

Lemma backward_Ok root s u s' :
  backward root s = Ok (u, s') →
  ∃ topo t, topo_order s root = Ok topo ∧ s !! root = Some t ∧
    call_all (reverse topo) (<[root := with_grad (ones_like (data t)) t]> s)
      = Ok (u, s').
Proof.
  unfold backward. destruct (topo_order s root) as [topo|] eqn:E; [|done].
  intros Hrun. apply bind_Ok in Hrun as ([] & s1 & E1 & Hrun).
  apply seed_Ok in E1 as (t & Et & ->). eauto.
Qed.

Lemma grad_only_seed root s t g :
  s !! root = Some t →
  grad_only (λ v, v = root) s (<[root := with_grad g t]> s).
Proof.
  intros Et. apply grad_only_insert; [apply grad_only_refl|done..].
Qed.


End Replay.

(** ** Calling backward again *)

Section Again.
Context {np : Host}.
Implicit Types (s : heap) (W : nat → Prop).


Lemma reachable_le s root v : acyclic s → reachable s root v → v ≤ root.
Proof.
  intros Hacyc Hr. induction Hr as [|x y z Hxy _ IH]; [done|].
  apply Hacyc in Hxy. lia.
Qed.









Lemma backward_grad_only root s u s' :
  backward root s = Ok (u, s') →
  ∃ topo t, topo_order s root = Ok topo ∧ s !! root = Some t ∧
    grad_only (λ v, v = root)
      s (<[root := with_grad (ones_like (data t)) t]> s) ∧
    grad_only (written (reverse topo) s)
      (<[root := with_grad (ones_like (data t)) t]> s) s'.
Proof.
  intros Hrun. apply backward_Ok in Hrun as (topo & t & Etopo & Et & Hrun).
  exists topo, t. split; [done|]. split; [done|].
  assert (grad_only (λ v, v = root)
            s (<[root := with_grad (ones_like (data t)) t]> s)) as Hseed
    by by apply grad_only_seed.
  split; [done|]. apply call_all_grad_only in Hrun.
  eapply grad_only_mono; [|exact Hrun].
  intros v Hv. by eapply written_grad_only.
Qed.


End Again.

Section AddLeaves.
Context {np : Host}.
Implicit Types (s : heap) (W : nat → Prop).

Lemma insert_with_grad_id s v t : s !! v = Some t → <[v := with_grad (grad t) t]> s = s.
Proof. intros Et. rewrite with_grad_id. by apply list_insert_id. Qed.

Lemma when_accumulate v t x g s :
  s !! v = Some t → accumulate (requires_grad t) (grad t) x = Some g →
  when (requires_grad t) (iadd_grad v x) s = Ok (tt, <[v := with_grad g t]> s).
Proof.
  intros Et. unfold accumulate. destruct (requires_grad t); cbn [when].
  - intros Eg. by apply iadd_grad_run.
  - intros [= <-]. by rewrite insert_with_grad_id.
Qed.

Lemma call_Add_backward a b z s ta tb tz ga gb :
  s !! a = Some ta → s !! b = Some tb → s !! z = Some tz →
  a ≠ b → z ≠ a →
  accumulate (requires_grad ta) (grad ta) (grad tz) = Some ga →
  accumulate (requires_grad tb) (grad tb) (grad tz) = Some gb →
  call (Add_backward a b z) s =
    Ok (tt, <[b := with_grad gb tb]> (<[a := with_grad ga ta]> s)).
Proof.
  intros Ea Eb Ez Hab Hza Ega Egb. cbn [call].
  rewrite (bind_get _ _ _ _ Ea).
  rewrite (bind_unit _ _ s (<[a := with_grad ga ta]> s)).
  - rewrite (bind_get _ _ _ tb) by by rewrite list_lookup_insert_ne.
    destruct (requires_grad tb) eqn:Rb; cbn [when accumulate] in *.
    + rewrite (bind_get _ _ _ tz) by by rewrite list_lookup_insert_ne.
      apply iadd_grad_run; [by rewrite list_lookup_insert_ne|done].
    + injection Egb as <-. rewrite insert_with_grad_id; [done|].
      by rewrite list_lookup_insert_ne.
  - destruct (requires_grad ta) eqn:Ra; cbn [when accumulate] in *.
    + rewrite (bind_get _ _ _ _ Ez). by apply iadd_grad_run.
    + injection Ega as <-. by rewrite insert_with_grad_id.
Qed.

Lemma call_all_leaves l s :
  (∀ n, n ∈ l → is_leaf s n) → call_all l s = Ok (tt, s).
Proof.
  induction l as [|n l IH]; intros Hl; [done|]. cbn [call_all].
  destruct (Hl n) as (t & Et & _ & Ec); [left|].
  rewrite (bind_get _ _ _ _ Et), Ec. cbn [call].
  apply IH. intros n' Hn'. apply Hl. by right.
Qed.

Lemma grad_only_is_leaf W s s' n : grad_only W s s' → is_leaf s n → is_leaf s' n.
Proof.
  intros [_ Hs] (t & Et & Hp & Hc). destruct (Hs n t Et) as (g & Eg & _).
  by exists (with_grad g t).
Qed.

(** A pass over a root and leaves comes to the closure of the root. *)
Lemma call_all_root l s z tz s' :
  NoDup l → z ∈ l → s !! z = Some tz →
  (∀ n, n ∈ l → n ≠ z → is_leaf s n) →
  call (_backward tz) s = Ok (tt, s') →
  call_all l s = Ok (tt, s').
Proof.
  intros Hnd Hz Ez Hl Hcall. induction l as [|n l IH]; [by apply elem_of_nil in Hz|].
  apply NoDup_cons in Hnd as [Hn Hnd]. cbn [call_all].
  destruct (decide (n = z)) as [->|Hne].
  - rewrite (bind_get _ _ _ _ Ez).
    rewrite (bind_unit _ _ _ _ Hcall). apply call_all_leaves.
    intros n Hn'. eapply grad_only_is_leaf; [by eapply call_grad_only|].
    apply Hl; [by right|]. by intros ->.
  - destruct (Hl n) as (t & Et & _ & Ec); [left|done|].
    rewrite (bind_get _ _ _ _ Et), Ec. cbn [call].
    apply IH; [done| |].
    + by apply elem_of_cons in Hz as [->|Hz].
    + intros n' Hn'. apply Hl. by right.
Qed.





End AddLeaves.

(** ** The integer host *)

Lemma mapM_total {A B} (f : A → option B) (g : A → B) l :
  (∀ a, f a = Some (g a)) → mapM f l = Some (map g l).
Proof.
  intros Hf. induction l as [|a l IH]; [done|].
  cbn. rewrite Hf, IH. done.
Qed.

Lemma broadcast2_scalar_r x k :
  z_wf x →
  broadcast2 z_add x (ZArr [] [k]) =
    Some (ZArr (zshape x) (map (λ a, a + k)%Z (zvals x))).
Proof.
  intros Hwf. unfold broadcast2. cbn [zshape zvals].
  destruct (decide (zshape x = [])) as [E|E].
  - unfold z_wf in Hwf. rewrite E in Hwf. cbn in Hwf.
    destruct (zvals x) as [|a [|]]; try done.
  - destruct (zshape x); [done|].
    by rewrite (mapM_total _ (λ a, a + k)%Z).
Qed.

(** C10: [c - t], which Python sends to [t.__rsub__(c)], returns the node
    of [t + (-c)].  Its data is [t.data + (c * -1)], with [t] on the left,
    whatever the host; on integer arrays that is [t.data - c] entry by
    entry, and not [c - t.data]. *)
Theorem rsub_keeps_self_left :
  (∀ (np : Host) t c s tt nc d,
     s !! t = Some tt →
     np_mul (of_scalar c) (of_scalar (int_lit (-1))) = Some nc →
     np_add (data tt) nc = Some d →
     ∃ s' tz,
       __rsub__ t (ONum c) s = Ok (S (S (length s)), s') ∧
       s' !! S (S (length s)) = Some tz ∧ data tz = d) ∧
  (∀ flip t (c : Z) (s : list (@Tensor (ZHost flip))) tt,
     s !! t = Some tt → z_wf (data tt) →
     ∃ s' tz,
       __rsub__ (np := ZHost flip) t (ONum (c : @scalar (ZHost flip))) s =
         Ok (S (S (length s)), s') ∧
       s' !! S (S (length s)) = Some tz ∧
       data tz = ZArr (zshape (data tt)) (map (λ v, v - c)%Z (zvals (data tt)))).
Proof.
  assert (∀ (np : Host) t c s tt nc d,
     s !! t = Some tt →
     np_mul (of_scalar c) (of_scalar (int_lit (-1))) = Some nc →
     np_add (data tt) nc = Some d →
     ∃ s' tz,
       __rsub__ t (ONum c) s = Ok (S (S (length s)), s') ∧
       s' !! S (S (length s)) = Some tz ∧ data tz = d) as Hgen.
  { intros np0 t c s tt nc d Et Enc Ed. eexists _, _.
    split; [by eapply rsub_run|]. split.
    - rewrite lookup_app_r by lia.
      by replace (S (S (length s)) - length s) with 2 by lia.
    - done. }
  split; [exact Hgen|].
  intros flip0 t c s tt Et Hwf.
  apply (Hgen (ZHost flip0) t c s tt (ZArr [] [c * -1]%Z)); [done|done|].
  cbn [np_add ZHost]. rewrite broadcast2_scalar_r by done.
  do 2 f_equal. apply map_ext. intros a. lia.
Qed.

(** ** The closure of Mul on an example *)

(** C1: for [a = [2]] and [b = [3]], both requiring a gradient,
    [backward] on [a * b] leaves [b.grad = [3]]: the closure has added
    [a.grad * z.grad], with the [a.grad = [3]] its first update left.  The
    product [a.data * z.grad] is [[2]]. *)
Theorem Mul_backward_reads_grad flip :
  final_grads (np := ZHost flip) (mul_example flip []) =
    Some [vec [3%Z]; vec [3%Z]; vec [1%Z]] ∧
  np_mul (Host := ZHost flip) (vec [2%Z]) (vec [1%Z]) = Some (vec [2%Z]).
Proof. destruct flip; split; vm_compute; reflexivity. Qed.

(** C5: in [z3 = b + (a + a * b)], the node [b] is an operand of the
    product [z1] and of the sum [z3].  Run alone on the gradient [[1]]
    they each end with, the closure of [z3] adds [[1]] to [b.grad] and the
    closure of [z1] adds [[3]]; [backward] leaves [b.grad = [5]], because
    by then [a.grad] holds what [a + z1] has added. *)
Theorem shared_operand_not_sum flip :
  final_grads ((shared_graph flip ≫= backward (np := ZHost flip)) []) =
    Some [vec [4%Z]; vec [5%Z]; vec [1%Z]; vec [1%Z]; vec [1%Z]] ∧
  final_grads
    ((shared_graph flip ≫= λ _, consumer_alone (np := ZHost flip) 4 (vec [1%Z])) []) =
    Some [vec [0%Z]; vec [1%Z]; vec [0%Z]; vec [1%Z]; vec [1%Z]] ∧
  final_grads
    ((shared_graph flip ≫= λ _, consumer_alone (np := ZHost flip) 2 (vec [1%Z])) []) =
    Some [vec [3%Z]; vec [3%Z]; vec [1%Z]; vec [0%Z]; vec [0%Z]].
Proof. destruct flip; repeat split; vm_compute; reflexivity. Qed.

(** ** Counterexamples *)



(** C8 fails for [@]: on a numeric literal [__matmul__] raises. *)
Lemma matmul_literal_raises :
  __matmul__ 0 (@ONum (ZHost false) 5%Z) one_matrix = Err AttributeError ∧
  ¬ ∃ z s', __matmul__ 0 (@ONum (ZHost false) 5%Z) one_matrix = Ok (z, s').
Proof.
  split; [reflexivity|]. intros (z & s' & E). discriminate E.
Qed.

(** ** The theorems at concrete inputs *)




Lemma requires_grad_is_or_witness :
  apply_op (CAdd 0 1) two_leaves = Ok (2, two_leaves_sum) ∧
  ∃ tz, two_leaves_sum = two_leaves ++ [tz] ∧ 2 = length two_leaves ∧
    requires_grad tz = flag two_leaves 0 || flag two_leaves 1.
Proof.
  split; [reflexivity|].
  exact (requires_grad_is_or (np := ZHost false) (CAdd 0 1) two_leaves 2
           two_leaves_sum eq_refl).
Defined.


Lemma literal_is_coerced_witness :
  OpAdd ≠ OpMatmul ∧
  operator OpAdd 0 (@ONum (ZHost false) 5%Z) lone_leaf =
    operator OpAdd 0 (OTensor (length lone_leaf))
             (lone_leaf ++ [literal (np := ZHost false) 5%Z]) ∧
  data (literal (np := ZHost false) 5%Z) = of_scalar (Host := ZHost false) 5%Z ∧
  grad (literal (np := ZHost false) 5%Z) = zeros_like (of_scalar (Host := ZHost false) 5%Z) ∧
  _prev (literal (np := ZHost false) 5%Z) = [] ∧
  _backward (literal (np := ZHost false) 5%Z) = lambda_None ∧
  requires_grad (literal (np := ZHost false) 5%Z) = false.
Proof.
  assert (OpAdd ≠ OpMatmul) as Hne by discriminate.
  split; [exact Hne|].
  exact (literal_is_coerced (np := ZHost false) OpAdd 0 5%Z lone_leaf Hne).
Defined.


Lemma rsub_keeps_self_left_witness :
  (∃ (tt : ztensor) (s' : zheap) (tz : ztensor),
     five_heap !! 0 = Some tt ∧
     np_add (data tt) (ZArr [] [(-2)%Z]) = Some (vec [3%Z]) ∧
     __rsub__ 0 (@ONum (ZHost false) 2%Z) five_heap =
       Ok (S (S (length five_heap)), s') ∧
     s' !! S (S (length five_heap)) = Some tz ∧ data tz = vec [3%Z]) ∧
  (∃ (tt : ztensor) (s' : zheap) (tz : ztensor),
     five_heap !! 0 = Some tt ∧ z_wf (data tt) ∧
     __rsub__ 0 (@ONum (ZHost false) 2%Z) five_heap =
       Ok (S (S (length five_heap)), s') ∧
     s' !! S (S (length five_heap)) = Some tz ∧
     data tz = ZArr (zshape (data tt))
                    (map (λ v, v - 2)%Z (zvals (data tt)))).
Proof.
  destruct rsub_keeps_self_left as [H1 H2]. split.
  - eexists.
    destruct (H1 (ZHost false) 0 2%Z five_heap _ (ZArr [] [(-2)%Z])
                 (vec [3%Z]) eq_refl eq_refl eq_refl) as (s' & tz & Hw).
    exists s', tz. repeat (split; [reflexivity|]). exact Hw.
  - eexists.
    destruct (H2 false 0 2%Z five_heap _ eq_refl eq_refl)
      as (s' & tz & Hw).
    exists s', tz. repeat (split; [reflexivity|]). exact Hw.
Defined.

(** ** What a constructor allocates *)

Section Allocation.
Context {np : Host}.
Implicit Types (s : heap).

Lemma node_fields s d ch op rg c :
  children (node d ch op rg c) = [] ∧
  label (node d ch op rg c) = "" ∧
  grad (node d ch op rg c) = zeros_like (data (node d ch op rg c)) ∧
  shape (grad (node d ch op rg c)) = shape (data (node d ch op rg c)) ∧
  NoDup (_prev (node d ch op rg c)) ∧
  (∀ x, x ∈ _prev (node d ch op rg c) ↔ x ∈ ch).
Proof.
  cbn. split; [done|]. split; [done|]. split; [done|].
  split; [apply shape_zeros_like|]. split; [apply set_iter_NoDup|].
  intros x. apply set_iter_elem.
Qed.

Lemma apply_op_alloc c s z s' :
  apply_op c s = Ok (z, s') →
  ∃ tz, s' = s ++ [tz] ∧ z = length s ∧
    children tz = [] ∧ label tz = "" ∧
    grad tz = zeros_like (data tz) ∧
    shape (grad tz) = shape (data tz) ∧
    NoDup (_prev tz) ∧
    (∀ x, x ∈ _prev tz ↔ x ∈ operands c) ∧
    (∀ x, x ∈ targets (_backward tz) ↔ x ∈ operands c) ∧
    (∀ x, x ∈ operands c → x < length s).
Proof.
  intros Hrun. destruct c; cbn [apply_op] in Hrun.
  1: apply Add_Ok in Hrun as (ta & tb & d & Ea & Eb & _ & -> & ->).
  2: apply Mul_Ok in Hrun as (ta & tb & d & Ea & Eb & _ & -> & ->).
  3: apply Neg_Ok in Hrun as (ta & d & Ea & _ & -> & ->).
  4: apply Matmul_Ok in Hrun as (ta & tb & d & Ea & Eb & _ & -> & ->).
  5: apply Pow_Ok in Hrun as (ta & d & Ea & _ & -> & ->).
  6: apply Div_Ok in Hrun as (ta & tb & d & Ea & Eb & _ & -> & ->).
  7: apply Exp_Ok in Hrun as (ta & d & Ea & _ & -> & ->).
  all: eexists; split; [reflexivity|]; split; [reflexivity|].
  all: match goal with |- context [node ?d ?ch ?op ?rg ?c] =>
         destruct (node_fields s d ch op rg c) as (? & ? & ? & ? & ? & ?)
       end.
  all: repeat (split; [done|]).
  all: intros x Hx; cbn [operands] in Hx;
    repeat (apply elem_of_cons in Hx as [->|Hx]);
    try (by eapply lookup_lt_Some); by apply elem_of_nil in Hx.
Qed.

(** X1: the node a constructor returns is the one object it adds to the
    heap.  Its [children] attribute is empty (the graph is held by [_prev]
    alone), its gradient is an array of zeros of the shape of its data, its
    [_prev] holds the operands, each once, and its closure adds to the
    gradients of the operands and of no other node; the operands exist
    already. *)
Theorem constructor_allocates c s z s' :
  apply_op c s = Ok (z, s') →
  ∃ tz, s' = s ++ [tz] ∧ z = length s ∧
    children tz = [] ∧ label tz = "" ∧
    grad tz = zeros_like (data tz) ∧
    shape (grad tz) = shape (data tz) ∧
    NoDup (_prev tz) ∧
    (∀ x, x ∈ _prev tz ↔ x ∈ operands c) ∧
    (∀ x, x ∈ targets (_backward tz) ↔ x ∈ operands c) ∧
    (∀ x, x ∈ operands c → x < length s).
Proof. apply apply_op_alloc. Qed.

End Allocation.

(** ** The heaps of the public surface *)

Section Surface.
Context {np : Host}.
Implicit Types (s : heap).

Lemma closures_local_nil : closures_local [].
Proof. intros v t x Et. by rewrite lookup_nil in Et. Qed.

Lemma closures_local_snoc s t :
  closures_local s → (∀ x, x ∈ targets (_backward t) → x ∈ _prev t) →
  closures_local (s ++ [t]).
Proof.
  intros Hloc Ht v t' x Et' Hx.
  destruct (decide (v < length s)) as [Hlt|Hge].
  - rewrite lookup_app_l in Et' by done. by eapply Hloc.
  - rewrite lookup_app_r in Et' by lia.
    apply list_lookup_singleton_Some in Et' as [Hv <-]. by apply Ht.
Qed.

Lemma local_older s : acyclic s → closures_local s → closures_older s.
Proof.
  intros Hacyc Hloc v t x Et Hx. apply Hacyc. exists t.
  split; [done|]. by eapply Hloc.
Qed.

Lemma apply_op_dag c s z s' :
  apply_op c s = Ok (z, s') →
  acyclic s ∧ closures_local s → acyclic s' ∧ closures_local s'.
Proof.
  intros Hrun [Hacyc Hloc].
  apply apply_op_alloc in Hrun
    as (tz & -> & -> & _ & _ & _ & _ & _ & Hprev & Htar & Hops).
  split.
  - apply acyclic_snoc; [done|]. intros x Hx. by apply Hops, Hprev.
  - apply closures_local_snoc; [done|]. intros x Hx. by apply Hprev, Htar.
Qed.

Lemma leaf_dag d rg s z s' :
  leaf d rg s = Ok (z, s') →
  acyclic s ∧ closures_local s → acyclic s' ∧ closures_local s'.
Proof.
  intros [= <- <-] [Hacyc Hloc]. split.
  - apply acyclic_snoc; [done|]. cbn. intros c Hc.
    apply (proj1 (set_iter_elem _ _)) in Hc. by apply elem_of_nil in Hc.
  - apply closures_local_snoc; [done|]. cbn. intros x Hx.
    by apply elem_of_nil in Hx.
Qed.

Lemma coerce_dag other s o s1 :
  coerce other s = Ok (o, s1) →
  acyclic s ∧ closures_local s → acyclic s1 ∧ closures_local s1.
Proof.
  destruct other as [t|c]; cbn [coerce].
  - by intros [= <- <-].
  - apply (leaf_dag (of_scalar c) false).
Qed.

Lemma bind_dag {A} (m : M A) (k : A → M nat) s z s' :
  (∀ a s1, m s = Ok (a, s1) →
     acyclic s ∧ closures_local s → acyclic s1 ∧ closures_local s1) →
  (∀ a s1 z s', k a s1 = Ok (z, s') →
     acyclic s1 ∧ closures_local s1 → acyclic s' ∧ closures_local s') →
  (m ≫= k) s = Ok (z, s') →
  acyclic s ∧ closures_local s → acyclic s' ∧ closures_local s'.
Proof.
  intros Hm Hk (a & s1 & E1 & E2)%bind_Ok Hwf. eauto.
Qed.

(** X2: the heaps that the public surface builds from the empty heap are
    acyclic, a node being younger than its children, and the closure of a
    node adds to gradients of children of that node only: a leaf, a
    constructor and a binary operator (which may allocate the leaf of a
    literal, and for [-] the negation) all keep this. *)
Theorem surface_keeps_dag :
  (acyclic [] ∧ closures_local []) ∧
  (∀ s d rg z s',
     leaf d rg s = Ok (z, s') →
     acyclic s ∧ closures_local s → acyclic s' ∧ closures_local s') ∧
  (∀ s c z s',
     apply_op c s = Ok (z, s') →
     acyclic s ∧ closures_local s → acyclic s' ∧ closures_local s') ∧
  (∀ s o self other z s',
     operator o self other s = Ok (z, s') →
     acyclic s ∧ closures_local s → acyclic s' ∧ closures_local s').
Proof.
  split; [split; [apply acyclic_nil|apply closures_local_nil]|].
  split; [intros; by eapply leaf_dag|].
  split; [intros; by eapply apply_op_dag|].
  intros s o self other z s'. destruct o; cbn [operator].
  - apply bind_dag; [apply coerce_dag|]. intros a s1 z' s''.
    apply (apply_op_dag (CAdd self a)).
  - apply bind_dag; [apply coerce_dag|]. intros a s1 z' s''.
    apply (apply_op_dag (CMul self a)).
  - apply bind_dag; [apply coerce_dag|]. intros a s1 z' s''.
    apply bind_dag; [intros n s2; apply (apply_op_dag (CNeg a))|].
    intros n s2 z'' s'''. apply (apply_op_dag (CAdd self n)).
  - apply bind_dag.
    + intros a s1. destruct other; [by intros [= <- <-]|done].
    + intros a s1 z' s''. apply (apply_op_dag (CMatmul self a)).
  - apply bind_dag; [apply coerce_dag|]. intros a s1 z' s''.
    apply (apply_op_dag (CDiv self a)).
Qed.

End Surface.

(** ** Gradients are added to, never assigned *)

Section Accumulation.
Context {np : Host}.
Implicit Types (s : heap).

Lemma iadds_trans g1 g2 g3 : iadds g1 g2 → iadds g2 g3 → iadds g1 g3.
Proof.
  induction 1 as [|g x g' g'' E _ IH]; [done|].
  intros H3. eapply iadds_step; [exact E|]. by apply IH.
Qed.

Lemma iadds_one g x g' : np_iadd g x = Some g' → iadds g g'.
Proof. intros E. eapply iadds_step; [exact E|]. apply iadds_refl. Qed.


Lemma accumulated_refl s : accumulated s s.
Proof.
  split; [done|]. intros v t Et. exists (grad t).
  rewrite with_grad_id. split; [done|]. apply iadds_refl.
Qed.

Lemma accumulated_trans s1 s2 s3 :
  accumulated s1 s2 → accumulated s2 s3 → accumulated s1 s3.
Proof.
  intros [L12 H12] [L23 H23]. split; [congruence|].
  intros v t Et. destruct (H12 v t Et) as (g & Eg & Hg).
  destruct (H23 v _ Eg) as (g' & Eg' & Hg'). exists g'.
  split; [done|]. by eapply iadds_trans.
Qed.

Lemma accumulated_insert s s1 v t1 x g :
  accumulated s s1 → s1 !! v = Some t1 → np_iadd (grad t1) x = Some g →
  accumulated s (<[v := with_grad g t1]> s1).
Proof.
  intros [L Hs] Et1 Eg. split; [by rewrite length_insert|].
  intros u t Et. destruct (Hs u t Et) as (g0 & Eg0 & Hg0).
  destruct (decide (u = v)) as [->|Hne].
  - exists g. rewrite list_lookup_insert_eq by by eapply lookup_lt_Some.
    rewrite Et1 in Eg0. injection Eg0 as ->. split; [done|].
    eapply iadds_trans; [exact Hg0|]. by eapply iadds_one.
  - exists g0. by rewrite list_lookup_insert_ne.
Qed.

Lemma accumulated_grad_only s s' : accumulated s s' → grad_only (λ _, True) s s'.
Proof.
  intros [L Hs]. split; [done|]. intros v t Et.
  destruct (Hs v t Et) as (g & Eg & _). exists g. split; [done|].
  intros Hn. by destruct Hn.
Qed.

(** One conditional update of a closure, as an accumulation. *)
Lemma update_accumulated s0 s v (t : Tensor) (m : M unit) u s' :
  accumulated s0 s → s !! v = Some t →
  (∀ s1 u1, m s = Ok (u1, s1) →
     ∃ x g, np_iadd (grad t) x = Some g ∧ s1 = <[v := with_grad g t]> s) →
  when (requires_grad t) m s = Ok (u, s') →
  accumulated s0 s'.
Proof.
  intros H0 Et Hm [[Hc E]|[_ ->]]%when_Ok; [|done].
  destruct (Hm _ _ E) as (x & g & Eg & ->). by eapply accumulated_insert.
Qed.

End Accumulation.

Ltac body_acc Et :=
  let Hm := fresh "Hm" in
  intros ? ? Hm; inv_M;
  let Et' := fresh "Et" in let Eg := fresh "Eg" in
  apply iadd_grad_Ok in Hm as (? & ? & Et' & Eg & ->);
  rewrite Et in Et'; injection Et' as <-; eauto.

Ltac unary_acc :=
  let Hrun := fresh "Hrun" in let ta := fresh "ta" in
  let Ea := fresh "Ea" in
  intros Hrun;
  apply bind_Ok in Hrun as (ta & ? & [Ea ->]%get_Ok & Hrun);
  eapply (update_accumulated _ _ _ ta);
    [apply accumulated_refl|exact Ea| |exact Hrun];
  body_acc Ea.

Ltac binary_acc :=
  let Hrun := fresh "Hrun" in let ta := fresh "ta" in
  let tb := fresh "tb" in let s1 := fresh "s" in
  let Ea := fresh "Ea" in let Eb := fresh "Eb" in let E1 := fresh "E" in
  let H1 := fresh "H" in
  intros Hrun;
  apply bind_Ok in Hrun as (ta & ? & [Ea ->]%get_Ok & Hrun);
  apply bind_Ok in Hrun as ([] & s1 & E1 & Hrun);
  apply bind_Ok in Hrun as (tb & ? & [Eb ->]%get_Ok & Hrun);
  match goal with |- accumulated ?s _ =>
    assert (accumulated s s1) as H1;
    [eapply (update_accumulated _ _ _ ta);
       [apply accumulated_refl|exact Ea| |exact E1]; body_acc Ea
    |eapply (update_accumulated _ _ _ tb); [exact H1|exact Eb| |exact Hrun];
       body_acc Eb]
  end.

Section Accumulates.
Context {np : Host}.
Implicit Types (s : heap).

Lemma call_accumulated c s u s' :
  call c s = Ok (u, s') → accumulated s s'.
Proof.
  destruct c; cbn [call].
  - intros [= <- <-]. apply accumulated_refl.
  - binary_acc.
  - binary_acc.
  - unary_acc.
  - binary_acc.
  - unary_acc.
  - binary_acc.
  - unary_acc.
Qed.

Lemma call_all_accumulated l s u s' :
  call_all l s = Ok (u, s') → accumulated s s'.
Proof.
  revert s. induction l as [|n l IH]; intros s; cbn [call_all].
  - intros [= <- <-]. apply accumulated_refl.
  - intros Hrun.
    apply bind_Ok in Hrun as (t & ? & [Et ->]%get_Ok & Hrun).
    apply bind_Ok in Hrun as ([] & s1 & E1 & Hrun).
    eapply accumulated_trans; [by eapply call_accumulated|by apply IH].
Qed.

Lemma backward_accumulated root s u s' :
  backward root s = Ok (u, s') →
  length s' = length s ∧
  ∀ v t, s !! v = Some t →
    ∃ g, s' !! v = Some (with_grad g t) ∧
      iadds (if decide (v = root) then ones_like (data t) else grad t) g.
Proof.
  intros Hrun.
  apply backward_Ok in Hrun as (topo & tr & _ & Er & Hrun).
  apply call_all_accumulated in Hrun as [L Hs].
  rewrite length_insert in L. split; [done|]. intros v t Et.
  destruct (decide (v = root)) as [->|Hne].
  - rewrite Er in Et. injection Et as <-.
    destruct (Hs root (with_grad (ones_like (data tr)) tr)) as (g & Eg & Hg).
    { apply list_lookup_insert_eq. by eapply lookup_lt_Some. }
    by exists g.
  - destruct (Hs v t) as (g & Eg & Hg).
    { by rewrite list_lookup_insert_ne. }
    by exists g.
Qed.

(** X3: a closure changes nothing but gradients, and a gradient it changes
    is the old one after one in-place addition or more; so is what a whole
    call of [backward] leaves, where the gradient of the root starts from
    the ones of the seed in place of its old value.  Data, [_prev],
    closures and flags of all nodes, and the number of nodes, are as
    before. *)
Theorem backward_accumulates :
  (∀ c s u s', call c s = Ok (u, s') → accumulated s s') ∧
  (∀ root s u s',
     backward root s = Ok (u, s') →
     length s' = length s ∧
     ∀ v t, s !! v = Some t →
       ∃ g, s' !! v = Some (with_grad g t) ∧
         iadds (if decide (v = root) then ones_like (data t) else grad t) g).
Proof.
  split; [apply call_accumulated|apply backward_accumulated].
Qed.

End Accumulates.

(** ** Invariants and frame of the backward pass *)

Section Pass.
Context {np : Host}.
Implicit Types (s : heap).



(** X5: [backward] on a node without children and with the empty closure,
    as a leaf is, assigns ones to its gradient and does nothing else. *)
Theorem backward_on_leaf s z tz :
  s !! z = Some tz → _prev tz = [] → _backward tz = lambda_None →
  backward z s = Ok (tt, <[z := with_grad (ones_like (data tz)) tz]> s).
Proof.
  intros Ez Pz Cz.
  assert (topo_order s z = Ok [z]) as Etopo.
  { unfold topo_order. cbn [build_topo fst snd].
    rewrite decide_False by apply not_elem_of_empty.
    rewrite Ez, Pz. done. }
  rewrite (backward_run s z [z] tz Etopo Ez). cbn [reverse rev_append call_all].
  rewrite (bind_get _ _ _ (with_grad (ones_like (data tz)) tz)).
  - cbn. by rewrite Cz.
  - apply list_lookup_insert_eq. by eapply lookup_lt_Some.
Qed.

Lemma grad_only_nothing s s' : grad_only (λ _, False) s s' → s' = s.
Proof.
  intros [L Hs]. apply list_eq. intros i.
  destruct (s !! i) as [t|] eqn:Et.
  - destruct (Hs i t Et) as (g & -> & Hg). rewrite Hg by tauto.
    by rewrite with_grad_id.
  - apply lookup_ge_None in Et. apply lookup_ge_None. lia.
Qed.

(** X6: [backward] leaves the nodes that the root does not reach as they
    are, on the heaps the public surface builds. *)
Theorem backward_stays_in_graph s root u s' v t :
  acyclic s → closures_local s →
  backward root s = Ok (u, s') →
  s !! v = Some t → ¬ reachable s root v →
  s' !! v = Some t.
Proof.
  intros Hacyc Hloc Hrun Et Hv.
  assert (v ≠ root) as Hne by (intros ->; apply Hv, rtc_refl).
  apply backward_grad_only in Hrun as (topo & tr & Etopo & Er & Hseed & Hrun).
  destruct Hrun as [_ Hrun].
  destruct (Hrun v t) as (g & Eg & Hg); [by rewrite list_lookup_insert_ne|].
  rewrite Eg, Hg; [by rewrite with_grad_id|].
  intros (n & tn & Hn & En & Hx & _). apply Hv.
  destruct (topo_order_spec s root Hacyc) as (topo' & E' & _ & Hr & _).
  { by eapply lookup_lt_Some. }
  rewrite Etopo in E'. injection E' as <-.
  rewrite elem_of_reverse in Hn. eapply rtc_r; [by apply Hr|].
  exists tn. split; [done|]. by eapply Hloc.
Qed.

End Pass.

(** ** The pass without gradients, and its order *)

Section Replays.
Context {np : Host}.
Implicit Types (s : heap).




Lemma child_index s l p c i j :
  NoDup l → children_before s l →
  l !! i = Some p → l !! j = Some c → child s p c → j < i.
Proof.
  intros Hnd Hcb Hi Hj Hc. specialize (Hcb i p c Hi Hc).
  apply elem_of_take in Hcb as (k & Hk & Hlt).
  by rewrite (NoDup_lookup l j k c Hnd Hj Hk).
Qed.

Lemma replay_order s root :
  acyclic s → root < length s →
  ∃ rest t,
    s !! root = Some t ∧
    backward root s =
      call_all (root :: rest)
               (<[root := with_grad (ones_like (data t)) t]> s) ∧
    NoDup (root :: rest) ∧
    (∀ v, v ∈ root :: rest ↔ reachable s root v) ∧
    (∀ i j p c,
       (root :: rest) !! i = Some p → (root :: rest) !! j = Some c →
       child s p c → i < j).
Proof.
  intros Hacyc Hroot.
  destruct (topo_order_spec s root Hacyc Hroot)
    as (topo & Etopo & Hnd & Hr & Hcb).
  destruct (lookup_lt_is_Some_2 s root Hroot) as [t Et].
  assert (∀ i j p c,
    reverse topo !! i = Some p → reverse topo !! j = Some c →
    child s p c → i < j) as Hord.
  { intros i j p c Hi Hj Hc.
    assert (i < length topo ∧ j < length topo) as [Li Lj].
    { pose proof (lookup_lt_Some _ _ _ Hi) as Li.
      pose proof (lookup_lt_Some _ _ _ Hj) as Lj.
      by rewrite length_reverse in Li, Lj. }
    rewrite reverse_lookup in Hi, Hj by done.
    pose proof (child_index _ _ _ _ _ _ Hnd Hcb Hi Hj Hc). lia. }
  destruct (reverse topo) as [|h rest] eqn:Erev.
  { assert (root ∈ reverse topo) as Hin
      by (rewrite elem_of_reverse; apply Hr, rtc_refl).
    rewrite Erev in Hin. by apply elem_of_nil in Hin. }
  assert (∀ v, v ∈ h :: rest ↔ reachable s root v) as Hr'.
  { intros v. rewrite <- Erev, elem_of_reverse. apply Hr. }
  assert (h = root) as ->.
  { assert (reachable s root h) as Hh by (apply Hr'; left).
    apply rtc_inv_r in Hh as [->|(p & Hp & Hc)]; [done|].
    apply Hr', list_elem_of_lookup in Hp as [i Hi].
    specialize (Hord i 0 p h Hi eq_refl Hc). lia. }
  exists rest, t. split; [done|].
  split; [by rewrite (backward_run s root topo t Etopo Et), Erev|].
  split; [by rewrite <- Erev, reverse_Permutation|]. done.
Qed.


End Replays.

(** ** The rules of Add, Neg, Div and Exp *)

Section Rules.
Context {np : Host}.
Implicit Types (s : heap).

Lemma set_iter_same x : set_iter [x; x] = [x].
Proof.
  pose proof (set_iter_NoDup [x; x]) as Hnd.
  pose proof (set_iter_elem [x; x]) as Hel.
  destruct (set_iter [x; x]) as [|y l].
  { specialize (Hel x). rewrite elem_of_nil in Hel.
    destruct (proj2 Hel). left. }
  assert (∀ u, u ∈ y :: l → u = x) as Hx.
  { intros u Hu. apply Hel in Hu.
    repeat (apply elem_of_cons in Hu as [->|Hu]); try done.
    by apply elem_of_nil in Hu. }
  rewrite (Hx y) in * by left. destruct l as [|y' l]; [done|].
  rewrite (Hx y') in Hnd by (right; left).
  apply NoDup_cons in Hnd as [Hnd _]. destruct Hnd. left.
Qed.

(** X9: [Add] returns the node of [a.data + b.data]; its closure adds
    [z.grad] to the gradient of each operand that requests one.  When
    both operands are one node [x], as in [x + x], the set [_prev] holds
    [x] once and the closure adds [z.grad] to [x.grad] twice. *)
Theorem Add_forward_backward :
  (∀ a b s ta tb d,
     s !! a = Some ta → s !! b = Some tb →
     np_add (data ta) (data tb) = Some d →
     Add a b s =
       Ok (length s,
           s ++ [node d [a; b] "+" (requires_grad ta || requires_grad tb)
                      (Add_backward a b (length s))])) ∧
  (∀ a b z s ta tb tz ga gb,
     s !! a = Some ta → s !! b = Some tb → s !! z = Some tz →
     a ≠ b → z ≠ a →
     accumulate (requires_grad ta) (grad ta) (grad tz) = Some ga →
     accumulate (requires_grad tb) (grad tb) (grad tz) = Some gb →
     call (Add_backward a b z) s =
       Ok (tt, <[b := with_grad gb tb]> (<[a := with_grad ga ta]> s))) ∧
  (∀ x z s tx tz d g1 g2,
     s !! x = Some tx → s !! z = Some tz → z ≠ x →
     _prev (node d [x; x] "+" (requires_grad tx || requires_grad tx)
                 (Add_backward x x z)) = [x] ∧
     (requires_grad tx = true →
      np_iadd (grad tx) (grad tz) = Some g1 →
      np_iadd g1 (grad tz) = Some g2 →
      call (Add_backward x x z) s = Ok (tt, <[x := with_grad g2 tx]> s))).
Proof.
  split; [|split].
  - intros a b s ta tb d Ea Eb Ed. apply Add_Ok. eauto 10.
  - intros a b z s ta tb tz ga gb Ea Eb Ez Hab Hza Ega Egb.
    by apply (call_Add_backward a b z s ta tb tz).
  - intros x z s tx tz d g1 g2 Ex Ez Hzx.
    split; [apply set_iter_same|]. intros Rx E1 E2. cbn [call].
    rewrite (bind_get _ _ _ _ Ex), Rx.
    rewrite (bind_unit _ _ s (<[x := with_grad g1 tx]> s)).
    + rewrite (bind_get _ _ _ (with_grad g1 tx)).
      2: { apply list_lookup_insert_eq. by eapply lookup_lt_Some. }
      cbn [requires_grad with_grad]. rewrite Rx. cbn [when].
      rewrite (bind_get _ _ _ tz) by by rewrite list_lookup_insert_ne.
      rewrite (iadd_grad_run _ _ _ (with_grad g1 tx) g2); [|..|done].
      * by rewrite list_insert_insert_eq.
      * apply list_lookup_insert_eq. by eapply lookup_lt_Some.
    + cbn [when]. rewrite (bind_get _ _ _ _ Ez). by apply iadd_grad_run.
Qed.

Lemma call_Neg_backward a z s ta tz x g :
  s !! a = Some ta → s !! z = Some tz →
  requires_grad ta = true →
  np_mul (of_scalar (int_lit (-1))) (grad tz) = Some x →
  np_iadd (grad ta) x = Some g →
  call (Neg_backward a z) s = Ok (tt, <[a := with_grad g ta]> s).
Proof.
  intros Ea Ez Ra Ex Eg. cbn [call].
  rewrite (bind_get _ _ _ _ Ea), Ra. cbn [when].
  rewrite (bind_get _ _ _ _ Ez), (bind_host _ _ _ _ Ex).
  by apply iadd_grad_run.
Qed.

(** X10: [Neg] returns the node of [a.data * -1], and its closure adds
    [-1 * z.grad] to [a.grad] when [a] requests a gradient and does
    nothing otherwise. *)
Theorem Neg_forward_backward :
  (∀ a s ta d,
     s !! a = Some ta →
     np_mul (data ta) (of_scalar (int_lit (-1))) = Some d →
     Neg a s =
       Ok (length s,
           s ++ [node d [a] "neg" (requires_grad ta)
                      (Neg_backward a (length s))])) ∧
  (∀ a z s ta tz x g,
     s !! a = Some ta → s !! z = Some tz →
     requires_grad ta = true →
     np_mul (of_scalar (int_lit (-1))) (grad tz) = Some x →
     np_iadd (grad ta) x = Some g →
     call (Neg_backward a z) s = Ok (tt, <[a := with_grad g ta]> s)) ∧
  (∀ a z s ta,
     s !! a = Some ta → requires_grad ta = false →
     call (Neg_backward a z) s = Ok (tt, s)).
Proof.
  split; [|split].
  - intros a s ta d Ea Ed. apply Neg_Ok. eauto 10.
  - intros a z s ta tz x g. apply call_Neg_backward.
  - intros a z s ta Ea Ra. cbn [call].
    by rewrite (bind_get _ _ _ _ Ea), Ra.
Qed.

(** X11: [Exp] returns the node of [np.exp(a.data)], and its closure adds
    [z.data * z.grad], with the data of the result, to [a.grad] when [a]
    requests a gradient and does nothing otherwise. *)
Theorem Exp_forward_backward :
  (∀ a s ta d,
     s !! a = Some ta → np_exp (data ta) = Some d →
     Exp a s =
       Ok (length s,
           s ++ [node d [a] "exp" (requires_grad ta)
                      (Exp_backward a (length s))])) ∧
  (∀ a z s ta tz x g,
     s !! a = Some ta → s !! z = Some tz →
     requires_grad ta = true →
     np_mul (data tz) (grad tz) = Some x →
     np_iadd (grad ta) x = Some g →
     call (Exp_backward a z) s = Ok (tt, <[a := with_grad g ta]> s)) ∧
  (∀ a z s ta,
     s !! a = Some ta → requires_grad ta = false →
     call (Exp_backward a z) s = Ok (tt, s)).
Proof.
  split; [|split].
  - intros a s ta d Ea Ed. apply Exp_Ok. eauto 10.
  - intros a z s ta tz x g Ea Ez Ra Ex Eg. cbn [call].
    rewrite (bind_get _ _ _ _ Ea), Ra. cbn [when].
    rewrite (bind_get _ _ _ _ Ez), (bind_host _ _ _ _ Ex).
    by apply iadd_grad_run.
  - intros a z s ta Ea Ra. cbn [call].
    by rewrite (bind_get _ _ _ _ Ea), Ra.
Qed.

(** X12: [Div] returns the node of [a.data / b.data], tagged ['*'] as the
    node of [Mul] is; on two distinct operands that request a gradient
    its closure adds [z.grad * (1 / b.data)] to [a.grad] and
    [(-z.grad * a.data) / b.data ** 2] to [b.grad], both from the data of
    the operands. *)
Theorem Div_forward_backward :
  (∀ a b s ta tb d,
     s !! a = Some ta → s !! b = Some tb →
     np_truediv (data ta) (data tb) = Some d →
     Div a b s =
       Ok (length s,
           s ++ [node d [a; b] "*" (requires_grad ta || requires_grad tb)
                      (Div_backward a b (length s))])) ∧
  (∀ a b z s ta tb tz q xa ga xb p yb gb,
     s !! a = Some ta → s !! b = Some tb → s !! z = Some tz →
     a ≠ b → z ≠ a →
     requires_grad ta = true → requires_grad tb = true →
     np_truediv (of_scalar (int_lit 1)) (data tb) = Some q →
     np_mul (grad tz) q = Some xa →
     np_iadd (grad ta) xa = Some ga →
     np_mul (np_negative (grad tz)) (data ta) = Some xb →
     np_power (data tb) (of_scalar (int_lit 2)) = Some p →
     np_truediv xb p = Some yb →
     np_iadd (grad tb) yb = Some gb →
     call (Div_backward a b z) s =
       Ok (tt, <[b := with_grad gb tb]> (<[a := with_grad ga ta]> s))).
Proof.
  split.
  - intros a b s ta tb d Ea Eb Ed. apply Div_Ok. eauto 10.
  - intros a b z s ta tb tz q xa ga xb p yb gb Ea Eb Ez Hab Hza Ra Rb
      Eq Exa Ega Exb Ep Eyb Egb. cbn [call].
    rewrite (bind_get _ _ _ _ Ea), Ra.
    rewrite (bind_unit _ _ s (<[a := with_grad ga ta]> s)).
    + rewrite (bind_get _ _ _ tb), Rb by by rewrite list_lookup_insert_ne.
      cbn [when].
      rewrite (bind_get _ _ _ tz) by by rewrite list_lookup_insert_ne.
      rewrite (bind_get _ _ _ (with_grad ga ta)).
      2: { apply list_lookup_insert_eq. by eapply lookup_lt_Some. }
      cbn [data with_grad].
      rewrite (bind_host _ _ _ _ Exb), (bind_host _ _ _ _ Ep).
      rewrite (bind_host _ _ _ _ Eyb).
      apply iadd_grad_run; [by rewrite list_lookup_insert_ne|done].
    + cbn [when]. rewrite (bind_get _ _ _ _ Ez), (bind_get _ _ _ _ Eb).
      rewrite (bind_host _ _ _ _ Eq), (bind_host _ _ _ _ Exa).
      by apply iadd_grad_run.
Qed.

End Rules.

(** ** Subtraction *)

Section Subtraction.
Context {np : Host}.
Implicit Types (s : heap).

Lemma sub_run a b s ta tb nb d :
  s !! a = Some ta → s !! b = Some tb →
  np_mul (data tb) (of_scalar (int_lit (-1))) = Some nb →
  np_add (data ta) nb = Some d →
  __sub__ a (OTensor b) s =
    Ok (S (length s),
        s ++ [node nb [b] "neg" (requires_grad tb)
                   (Neg_backward b (length s));
              node d [a; length s] "+"
                   (requires_grad ta || requires_grad tb)
                   (Add_backward a (length s) (S (length s)))]).
Proof.
  intros Ea Eb Enb Ed. unfold __sub__. rewrite coerce_tensor.
  set (tn := node nb [b] "neg" (requires_grad tb) (Neg_backward b (length s))).
  assert (Neg b s = Ok (length s, s ++ [tn])) as En
    by (apply Neg_Ok; eauto 10).
  unfold __neg__.
  assert (∀ k : nat → M nat, (Neg b ≫= k) s = k (length s) (s ++ [tn])) as ->.
  { intros k. unfold mbind, M_bind. by rewrite En. }
  unfold __add__. rewrite coerce_tensor.
  replace (s ++ [tn; _]) with
    ((s ++ [tn]) ++ [node d [a; length s] "+"
                       (requires_grad ta || requires_grad tb)
                       (Add_backward a (length s) (S (length s)))])
    by by rewrite <- app_assoc.
  apply Add_Ok. exists ta, tn, d.
  split; [rewrite lookup_app_l; [done|by eapply lookup_lt_Some]|].
  split; [rewrite lookup_app_r by done; by rewrite Nat.sub_diag|].
  split; [done|]. rewrite length_app. cbn [length].
  rewrite Nat.add_1_r. done.
Qed.

Lemma leaf_reaches s v u : is_leaf s v → reachable s v u → u = v.
Proof.
  intros (t & Et & Hp & _) Hr.
  apply rtc_inv in Hr as [->|(y & (t' & Et' & Hy) & _)]; [done|].
  rewrite Et in Et'. injection Et' as <-. rewrite Hp in Hy.
  by apply elem_of_nil in Hy.
Qed.

(** X13: [a - b] on two nodes builds the negation of [b] and then the sum
    of [a] and of that negation, which is the node it returns.  On two
    distinct leaves, [b] requesting a gradient, [backward] on the result
    adds ones to [a.grad] (when [a] requests a gradient), leaves ones in
    the gradient of the negation, and adds [-1] times those to
    [b.grad]. *)
Theorem sub_forward_backward :
  (∀ a b s ta tb nb d,
     s !! a = Some ta → s !! b = Some tb →
     np_mul (data tb) (of_scalar (int_lit (-1))) = Some nb →
     np_add (data ta) nb = Some d →
     __sub__ a (OTensor b) s =
       Ok (S (length s),
           s ++ [node nb [b] "neg" (requires_grad tb)
                      (Neg_backward b (length s));
                 node d [a; length s] "+"
                      (requires_grad ta || requires_grad tb)
                      (Add_backward a (length s) (S (length s)))])) ∧
  (∀ a b s ta tb nb d ga gn x gb,
     acyclic s →
     s !! a = Some ta → s !! b = Some tb → a ≠ b →
     _prev ta = [] → _backward ta = lambda_None →
     _prev tb = [] → _backward tb = lambda_None →
     requires_grad tb = true →
     np_mul (data tb) (of_scalar (int_lit (-1))) = Some nb →
     np_add (data ta) nb = Some d →
     accumulate (requires_grad ta) (grad ta) (ones_like d) = Some ga →
     np_iadd (zeros_like nb) (ones_like d) = Some gn →
     np_mul (of_scalar (int_lit (-1))) gn = Some x →
     np_iadd (grad tb) x = Some gb →
     ∃ s1 s2,
       __sub__ a (OTensor b) s = Ok (S (length s), s1) ∧
       backward (S (length s)) s1 = Ok (tt, s2) ∧
       s2 !! a = Some (with_grad ga ta) ∧
       s2 !! b = Some (with_grad gb tb) ∧
       grad <$> s2 !! length s = Some gn ∧
       grad <$> s2 !! S (length s) = Some (ones_like d)).
Proof.
  split; [apply sub_run|].
  intros a b s ta tb nb d ga gn x gb Hacyc Ea Eb Hab Pa Ca Pb Cb Rb
    Enb Ed Ega Egn Ex Egb.
  set (n := length s). set (z := S n).
  set (tn := node nb [b] "neg" (requires_grad tb) (Neg_backward b n)).
  set (tz := node d [a; n] "+" (requires_grad ta || requires_grad tb)
                  (Add_backward a n z)).
  set (s1 := s ++ [tn; tz]).
  assert (a < n ∧ b < n) as [La Lb] by (split; by eapply lookup_lt_Some).
  assert (s1 !! a = Some ta ∧ s1 !! b = Some tb ∧ s1 !! n = Some tn ∧
          s1 !! z = Some tz ∧ length s1 = S (S n)) as (Ea1 & Eb1 & En1 & Ez1 & L1).
  { unfold s1. rewrite !lookup_app_l by done.
    rewrite !lookup_app_r by (unfold z, n; lia).
    replace (n - length s) with 0 by (unfold n; lia).
    replace (z - length s) with 1 by (unfold z, n; lia).
    rewrite length_app. cbn [length]. repeat split; try done.
    unfold n. lia. }
  assert (acyclic s1) as Hacyc1.
  { unfold s1. replace [tn; tz] with ([tn] ++ [tz]) by done.
    rewrite app_assoc. apply acyclic_snoc; [apply acyclic_snoc; [done|]|].
    - cbn. intros c Hc. apply (proj1 (set_iter_elem _ _)) in Hc.
      apply list_elem_of_singleton in Hc as ->. done.
    - cbn. intros c Hc. apply (proj1 (set_iter_elem _ _)) in Hc.
      rewrite length_app. cbn [length]. fold n.
      apply elem_of_cons in Hc as [->|Hc]; [lia|].
      apply list_elem_of_singleton in Hc as ->. lia. }
  assert (is_leaf s1 a ∧ is_leaf s1 b) as [Hla Hlb]
    by (split; [by exists ta|by exists tb]).
  assert (∀ v, reachable s1 z v → v = z ∨ v = n ∨ v = a ∨ v = b) as Hreach.
  { intros v Hv.
    apply rtc_inv in Hv as [->|(y & (t' & Et' & Hy) & Hv)]; [by left|].
    rewrite Ez1 in Et'. injection Et' as <-. cbn in Hy.
    apply (proj1 (set_iter_elem _ _)) in Hy.
    apply elem_of_cons in Hy as [->|Hy].
    { right. right. left. by apply (leaf_reaches s1 a). }
    apply list_elem_of_singleton in Hy as ->.
    apply rtc_inv in Hv as [->|(y & (t' & Et' & Hy) & Hv)]; [by right; left|].
    rewrite En1 in Et'. injection Et' as <-. cbn in Hy.
    apply (proj1 (set_iter_elem _ _)) in Hy.
    apply list_elem_of_singleton in Hy as ->.
    right. right. right. by apply (leaf_reaches s1 b). }
  destruct (replay_order s1 z Hacyc1) as (rest & t & Et & Hrun & Hnd & Hr & _).
  { rewrite L1. unfold z. lia. }
  rewrite Ez1 in Et. injection Et as <-.
  set (s0 := <[z := with_grad (ones_like (data tz)) tz]> s1) in Hrun.
  set (sa := <[n := with_grad gn tn]> (<[a := with_grad ga ta]> s0)).
  set (s2 := <[b := with_grad gb tb]> sa).
  assert (s0 !! a = Some ta ∧ s0 !! n = Some tn ∧
          s0 !! z = Some (with_grad (ones_like d) tz)) as (Ea0 & En0 & Ez0).
  { unfold s0. rewrite !list_lookup_insert_ne by (unfold z; lia).
    repeat split; try done. apply list_lookup_insert_eq. rewrite L1.
    unfold z. lia. }
  assert (call (Add_backward a n z) s0 = Ok (tt, sa)) as Hz.
  { apply (call_Add_backward a n z s0 ta tn (with_grad (ones_like d) tz));
      try done; try (unfold z; lia).
    cbn. by rewrite Rb. }
  assert (length s0 = S (S n)) as L0 by (unfold s0; by rewrite length_insert).
  assert (sa !! a = Some (with_grad ga ta) ∧ sa !! b = Some tb ∧
          sa !! n = Some (with_grad gn tn)) as (Eaa & Eba & Ena).
  { unfold sa. split; [|split].
    - rewrite list_lookup_insert_ne by lia.
      apply list_lookup_insert_eq. lia.
    - rewrite !list_lookup_insert_ne by lia. unfold s0.
      by rewrite list_lookup_insert_ne by (unfold z; lia).
    - apply list_lookup_insert_eq. rewrite length_insert. lia. }
  assert (call (Neg_backward b n) sa = Ok (tt, s2)) as Hn.
  { by apply (call_Neg_backward b n sa tb (with_grad gn tn) x gb). }
  apply NoDup_cons in Hnd as [Hz' Hnd].
  assert (call_all rest sa = Ok (tt, s2)) as Hrest.
  { apply (call_all_root rest sa n (with_grad gn tn)); try done.
    - assert (n ∈ z :: rest) as Hin.
      { apply Hr. eapply rtc_once. exists tz. split; [done|]. cbn.
        apply set_iter_elem. right. left. }
      apply elem_of_cons in Hin as [Hin|Hin]; [unfold z in Hin; lia|done].
    - intros v Hv Hvn.
      assert (v ≠ z) as Hvz by (intros ->; done).
      destruct (Hreach v) as [-> | [-> | [-> | ->]]]; try done.
      + apply Hr. by right.
      + by exists (with_grad ga ta).
      + by exists tb. }
  exists s1, s2. split; [by apply sub_run|]. split.
  { rewrite Hrun. cbn [call_all]. rewrite (bind_get _ _ _ _ Ez0).
    cbn [_backward with_grad tz node].
    rewrite (bind_unit _ _ _ _ Hz). done. }
  unfold s2. split; [|split; [|split]].
  - by rewrite list_lookup_insert_ne.
  - apply list_lookup_insert_eq.
    unfold sa. rewrite !length_insert. lia.
  - rewrite list_lookup_insert_ne by lia. fold n. by rewrite Ena.
  - rewrite list_lookup_insert_ne by (unfold z; lia). unfold sa.
    rewrite !list_lookup_insert_ne by (unfold z; lia). fold n. fold z.
    by rewrite Ez0.
Qed.

End Subtraction.

(** ** What backward can raise *)

Section Errors.
Context {np : Host}.
Implicit Types (s : heap).














Lemma binary_raises (f : arr → arr → option arr) op
    (cl : nat → nat → nat → closure) a b s :
  a < length s → b < length s →
  array_error_only
    ((ta ← get a; tb ← get b;
      let rg := requires_grad ta || requires_grad tb in
      d ← host (f (data ta) (data tb));
      z ← Tensor_init d [a; b] op rg;
      set_backward z (cl a b z) ;;
      mret z) s).
Proof.
  intros Ha Hb.
  destruct (lookup_lt_is_Some_2 s a Ha) as [ta Ea].
  destruct (lookup_lt_is_Some_2 s b Hb) as [tb Eb].
  rewrite (bind_get _ _ _ _ Ea), (bind_get _ _ _ _ Eb). cbv zeta.
  destruct (f (data ta) (data tb)) as [d|] eqn:Ed; [|done].
  rewrite (bind_host _ _ _ _ eq_refl).
  by rewrite (new_node _ _ _ _ (cl a b) mret).
Qed.

Lemma unary_raises (f : arr → option arr) op (cl : nat → nat → closure)
    a s :
  a < length s →
  array_error_only
    ((ta ← get a;
      d ← host (f (data ta));
      z ← Tensor_init d [a] op (requires_grad ta);
      set_backward z (cl a z) ;;
      mret z) s).
Proof.
  intros Ha.
  destruct (lookup_lt_is_Some_2 s a Ha) as [ta Ea].
  rewrite (bind_get _ _ _ _ Ea).
  destruct (f (data ta)) as [d|] eqn:Ed; [|done].
  rewrite (bind_host _ _ _ _ eq_refl).
  by rewrite (new_node _ _ _ _ (cl a) mret).
Qed.

Lemma apply_op_raises c s :
  (∀ x, x ∈ operands c → x < length s) →
  array_error_only (apply_op c s).
Proof.
  intros Hc. destruct c; cbn [apply_op operands] in *.
  all: assert (a < length s) as Ha by (apply Hc; left).
  all: try assert (b < length s) as Hb by (apply Hc; right; left).
  - by apply binary_raises.
  - by apply binary_raises.
  - by apply (unary_raises (λ x, np_mul x (of_scalar (int_lit (-1))))
                 "neg" Neg_backward).
  - by apply binary_raises.
  - by apply (unary_raises (λ x, np_power x (of_scalar p)) "pow"
                 (λ a z, Pow_backward a p z)).
  - by apply binary_raises.
  - by apply (unary_raises np_exp "exp" Exp_backward).
Qed.




Lemma closures_closedb_sound s :
  closures_closedb s = true → closures_closed (length s) s.
Proof.
  intros Hb. split; [done|]. intros v t x Et Hx.
  unfold closures_closedb in Hb. rewrite forallb_forall in Hb.
  apply list_elem_of_lookup_2, list_elem_of_In in Et. specialize (Hb t Et).
  rewrite forallb_forall in Hb. apply list_elem_of_In in Hx.
  specialize (Hb x Hx). by apply Nat.ltb_lt in Hb.
Qed.


Lemma bind_raises {A B} (m : M A) (k : A → M B) s :
  array_error_only (m s) →
  (∀ a s1, m s = Ok (a, s1) → array_error_only (k a s1)) →
  array_error_only ((m ≫= k) s).
Proof.
  intros Hm Hk. unfold mbind, M_bind.
  destruct (m s) as [[a s1]|e]; [by apply Hk|done].
Qed.

Lemma Neg_raises a s : a < length s → array_error_only (Neg a s).
Proof.
  apply (unary_raises (λ x, np_mul x (of_scalar (int_lit (-1))))
           "neg" Neg_backward).
Qed.

Lemma sub_raises self other s :
  self < length s → other < length s →
  array_error_only ((n ← __neg__ other; __add__ self (OTensor n)) s).
Proof.
  intros Hs Ho. apply bind_raises; [by apply Neg_raises|].
  intros n s1 En. apply Neg_Ok in En as (ta & d & Ea & _ & -> & ->).
  apply bind_raises; [done|]. intros ? ? [= <- <-].
  apply binary_raises; rewrite length_app; cbn [length]; lia.
Qed.

Lemma operator_raises o self other s :
  self < length s →
  match other with
  | OTensor t => t < length s
  | ONum _ => o ≠ OpMatmul
  end →
  array_error_only (operator o self other s).
Proof.
  intros Hs Ho. destruct other as [t|c].
  - destruct o; cbn [operator].
    1,2,4,5: apply bind_raises; [done|]; intros ? ? [= <- <-];
      by apply binary_raises.
    apply bind_raises; [done|]. intros ? ? [= <- <-]. by apply sub_raises.
  - assert (∀ a s1, coerce (ONum c) s = Ok (a, s1) →
              self < length s1 ∧ a < length s1) as Hco.
    { intros a s1 [= <- <-]. rewrite length_app. cbn [length]. lia. }
    destruct o; cbn [operator]; [| | |done|].
    1,2,4: apply bind_raises; [done|]; intros a s1 E;
      destruct (Hco a s1 E); by apply binary_raises.
    apply bind_raises; [done|]. intros a s1 E.
    destruct (Hco a s1 E). by apply sub_raises.
Qed.

(** X15: called on objects of the heap, a constructor and an operator of
    the class return or raise what an array operation raised; so does an
    operator other than [@] given a number on its right, which [@] answers
    with an [AttributeError] whatever its left operand is. *)
Theorem forward_raises_array_errors_only :
  (∀ c s e, (∀ x, x ∈ operands c → x < length s) →
     apply_op c s = Err e → e = ArrayError) ∧
  (∀ o self t s e, self < length s → t < length s →
     operator o self (OTensor t) s = Err e → e = ArrayError) ∧
  (∀ o self c s e, self < length s → o ≠ OpMatmul →
     operator o self (ONum c) s = Err e → e = ArrayError) ∧
  (∀ self c s, operator OpMatmul self (ONum c) s = Err AttributeError).
Proof.
  split; [|split; [|split]].
  - intros c s e Hc E. pose proof (apply_op_raises c s Hc) as Hf.
    by rewrite E in Hf.
  - intros o self t s e Hs Ht E.
    pose proof (operator_raises o self (OTensor t) s Hs Ht) as Hf.
    by rewrite E in Hf.
  - intros o self c s e Hs Ho E.
    pose proof (operator_raises o self (ONum c) s Hs Ho) as Hf.
    by rewrite E in Hf.
  - done.
Qed.

End Errors.

(** ** Tests of the invariants *)

Section Tests.
Context {np : Host}.

Lemma closures_localb_sound (s : heap) :
  closures_localb s = true → closures_local s.
Proof.
  unfold closures_localb. rewrite forallb_forall. intros Hall v t x Et Hx.
  specialize (Hall t (proj1 (list_elem_of_In _ _)
                        (list_elem_of_lookup_2 _ _ _ Et))).
  rewrite forallb_forall in Hall.
  specialize (Hall x (proj1 (list_elem_of_In _ _) Hx)).
  by apply bool_decide_eq_true in Hall.
Qed.



End Tests.

(** ** The further theorems at concrete inputs *)

Lemma constructor_allocates_witness :
  apply_op (CAdd 0 1) two_leaves = Ok (2, two_leaves_sum) ∧
  ∃ tz : ztensor, two_leaves_sum = two_leaves ++ [tz] ∧ 2 = length two_leaves ∧
    children tz = [] ∧ label tz = "" ∧
    grad tz = zeros_like (data tz) ∧
    shape (grad tz) = shape (data tz) ∧
    NoDup (_prev tz) ∧
    (∀ x, x ∈ _prev tz ↔ x ∈ operands (np := ZHost false) (CAdd 0 1)) ∧
    (∀ x, x ∈ targets (_backward tz) ↔
          x ∈ operands (np := ZHost false) (CAdd 0 1)) ∧
    (∀ x, x ∈ operands (np := ZHost false) (CAdd 0 1) →
          x < length two_leaves).
Proof.
  split; [reflexivity|].
  exact (constructor_allocates (np := ZHost false) (CAdd 0 1) two_leaves 2
           two_leaves_sum eq_refl).
Defined.

Lemma surface_keeps_dag_witness :
  (acyclic lone_leaf ∧ closures_local lone_leaf) ∧
  (acyclic two_leaves ∧ closures_local two_leaves) ∧
  (acyclic two_leaves_sum ∧ closures_local two_leaves_sum) ∧
  operator OpSub 0 (@ONum (ZHost false) 5%Z) lone_leaf =
    Ok (3, lone_minus_five) ∧
  acyclic lone_minus_five ∧ closures_local lone_minus_five.
Proof.
  destruct (surface_keeps_dag (np := ZHost false))
    as (Hnil & Hleaf & Hop & Hoper).
  assert (acyclic lone_leaf ∧ closures_local lone_leaf) as H1.
  { exact (Hleaf [] (vec [2%Z]) false 0 lone_leaf eq_refl Hnil). }
  assert (acyclic base_heap ∧ closures_local base_heap) as H2.
  { exact (Hleaf [] (vec [2%Z]) true 0 base_heap eq_refl Hnil). }
  assert (acyclic two_leaves ∧ closures_local two_leaves) as H3.
  { exact (Hleaf base_heap (vec [3%Z]) false 1 two_leaves eq_refl H2). }
  split; [exact H1|]. split; [exact H3|]. split.
  { exact (Hop two_leaves (CAdd 0 1) 2 two_leaves_sum eq_refl H3). }
  split; [reflexivity|].
  exact (Hoper lone_leaf OpSub 0 (@ONum (ZHost false) 5%Z) 3 lone_minus_five
           eq_refl H1).
Defined.

Lemma backward_accumulates_witness :
  (∃ s' : zheap,
     call (Add_backward 0 1 2) frozen_heap = Ok (tt, s') ∧
     accumulated frozen_heap s') ∧
  backward 4 shared_heap = Ok (tt, shared_after) ∧
  length shared_after = length shared_heap ∧
  ∀ v (t : ztensor), shared_heap !! v = Some t →
    ∃ g, shared_after !! v = Some (with_grad g t) ∧
      iadds (if decide (v = 4) then ones_like (data t) else grad t) g.
Proof.
  destruct (backward_accumulates (np := ZHost false)) as [H1 H2]. split.
  - eexists. split; [reflexivity|].
    exact (H1 (Add_backward 0 1 2) frozen_heap tt _ eq_refl).
  - split; [reflexivity|].
    exact (H2 4 shared_heap tt shared_after eq_refl).
Defined.


Lemma backward_on_leaf_witness :
  ∃ tz : ztensor,
    lone_leaf !! 0 = Some tz ∧ _prev tz = [] ∧ _backward tz = lambda_None ∧
    backward 0 lone_leaf =
      Ok (tt, <[0 := with_grad (ones_like (data tz)) tz]> lone_leaf).
Proof.
  eexists. split; [reflexivity|]. split; [reflexivity|].
  split; [reflexivity|].
  exact (backward_on_leaf (np := ZHost false) lone_leaf 0 _
           eq_refl eq_refl eq_refl).
Defined.

Lemma backward_stays_in_graph_witness :
  ∃ t : ztensor,
    acyclic shared_heap ∧ closures_local shared_heap ∧
    backward 2 shared_heap = Ok (tt, product_after) ∧
    shared_heap !! 4 = Some t ∧ ¬ reachable shared_heap 2 4 ∧
    product_after !! 4 = Some t.
Proof.
  assert (acyclic shared_heap) as Hacyc
    by (apply acyclicb_sound; reflexivity).
  assert (closures_local shared_heap) as Hloc
    by (apply closures_localb_sound; reflexivity).
  assert (¬ reachable shared_heap 2 4) as Hr.
  { intros Hr. apply reachable_le in Hr; [lia|exact Hacyc]. }
  eexists. split; [exact Hacyc|]. split; [exact Hloc|].
  split; [reflexivity|]. split; [reflexivity|]. split; [exact Hr|].
  exact (backward_stays_in_graph (np := ZHost false) shared_heap 2 tt
           product_after 4 _ Hacyc Hloc eq_refl eq_refl Hr).
Defined.



Lemma Add_forward_backward_witness :
  (∃ ta tb : ztensor,
     two_leaves !! 0 = Some ta ∧ two_leaves !! 1 = Some tb ∧
     Add 0 1 two_leaves =
       Ok (length two_leaves,
           two_leaves ++
             [node (np := ZHost false) (vec [5%Z]) [0; 1] "+"
                   (requires_grad ta || requires_grad tb)
                   (Add_backward 0 1 (length two_leaves))])) ∧
  (∃ ta tb : ztensor,
     frozen_heap !! 0 = Some ta ∧ frozen_heap !! 1 = Some tb ∧
     call (Add_backward 0 1 2) frozen_heap =
       Ok (tt, <[1 := with_grad (np := ZHost false) (vec [1%Z]) tb]>
                 (<[0 := with_grad (np := ZHost false) (vec [0%Z]) ta]>
                    frozen_heap))) ∧
  (∃ tx : ztensor,
     double_heap !! 0 = Some tx ∧ requires_grad tx = true ∧
     _prev (node (np := ZHost false) (vec [4%Z]) [0; 0] "+"
                 (requires_grad tx || requires_grad tx)
                 (Add_backward 0 0 1)) = [0] ∧
     call (Add_backward 0 0 1) double_heap =
       Ok (tt, <[0 := with_grad (np := ZHost false) (vec [2%Z]) tx]>
                 double_heap)).
Proof.
  destruct (Add_forward_backward (np := ZHost false)) as (H1 & H2 & H3).
  split; [|split].
  - eexists _, _. split; [reflexivity|]. split; [reflexivity|].
    exact (H1 0 1 two_leaves _ _ (vec [5%Z]) eq_refl eq_refl eq_refl).
  - eexists _, _. split; [reflexivity|]. split; [reflexivity|].
    exact (H2 0 1 2 frozen_heap _ _ _ (vec [0%Z]) (vec [1%Z])
              eq_refl eq_refl eq_refl ltac:(lia) ltac:(lia) eq_refl eq_refl).
  - eexists. split; [reflexivity|]. split; [reflexivity|].
    destruct (H3 0 1 double_heap _ _ (vec [4%Z]) (vec [1%Z]) (vec [2%Z])
                 eq_refl eq_refl ltac:(lia)) as [Hp Hc].
    split; [exact Hp|]. exact (Hc eq_refl eq_refl eq_refl).
Defined.

Lemma Neg_forward_backward_witness :
  (∃ ta : ztensor,
     base_heap !! 0 = Some ta ∧
     Neg 0 base_heap =
       Ok (length base_heap,
           base_heap ++
             [node (np := ZHost false) (vec [(-2)%Z]) [0] "neg"
                   (requires_grad ta) (Neg_backward 0 (length base_heap))])) ∧
  (∃ ta : ztensor,
     neg_seeded !! 0 = Some ta ∧ requires_grad ta = true ∧
     call (Neg_backward 0 1) neg_seeded =
       Ok (tt, <[0 := with_grad (np := ZHost false) (vec [(-1)%Z]) ta]>
                 neg_seeded)) ∧
  (∃ ta : ztensor,
     frozen_neg_seeded !! 0 = Some ta ∧ requires_grad ta = false ∧
     call (Neg_backward 0 1) frozen_neg_seeded = Ok (tt, frozen_neg_seeded)).
Proof.
  destruct (Neg_forward_backward (np := ZHost false)) as (H1 & H2 & H3).
  split; [|split].
  - eexists. split; [reflexivity|].
    exact (H1 0 base_heap _ (vec [(-2)%Z]) eq_refl eq_refl).
  - eexists. split; [reflexivity|]. split; [reflexivity|].
    exact (H2 0 1 neg_seeded _ _ (vec [(-1)%Z]) (vec [(-1)%Z])
              eq_refl eq_refl eq_refl eq_refl eq_refl).
  - eexists. split; [reflexivity|]. split; [reflexivity|].
    exact (H3 0 1 frozen_neg_seeded _ eq_refl eq_refl).
Defined.

Lemma Exp_forward_backward_witness :
  (∃ ta : ztensor,
     zero_heap !! 0 = Some ta ∧
     Exp 0 zero_heap =
       Ok (length zero_heap,
           zero_heap ++
             [node (np := ZHost false) (vec [1%Z]) [0] "exp"
                   (requires_grad ta) (Exp_backward 0 (length zero_heap))])) ∧
  (∃ ta : ztensor,
     exp_seeded !! 0 = Some ta ∧ requires_grad ta = true ∧
     call (Exp_backward 0 1) exp_seeded =
       Ok (tt, <[0 := with_grad (np := ZHost false) (vec [1%Z]) ta]>
                 exp_seeded)) ∧
  (∃ ta : ztensor,
     frozen_exp_seeded !! 0 = Some ta ∧ requires_grad ta = false ∧
     call (Exp_backward 0 1) frozen_exp_seeded = Ok (tt, frozen_exp_seeded)).
Proof.
  destruct (Exp_forward_backward (np := ZHost false)) as (H1 & H2 & H3).
  split; [|split].
  - eexists. split; [reflexivity|].
    exact (H1 0 zero_heap _ (vec [1%Z]) eq_refl eq_refl).
  - eexists. split; [reflexivity|]. split; [reflexivity|].
    exact (H2 0 1 exp_seeded _ _ (vec [1%Z]) (vec [1%Z])
              eq_refl eq_refl eq_refl eq_refl eq_refl).
  - eexists. split; [reflexivity|]. split; [reflexivity|].
    exact (H3 0 1 frozen_exp_seeded _ eq_refl eq_refl).
Defined.

Lemma Div_forward_backward_witness :
  (∃ ta tb : ztensor,
     quotient_leaves !! 0 = Some ta ∧ quotient_leaves !! 1 = Some tb ∧
     Div 0 1 quotient_leaves =
       Ok (length quotient_leaves,
           quotient_leaves ++
             [node (np := ZHost false) (vec [(-6)%Z]) [0; 1] "*"
                   (requires_grad ta || requires_grad tb)
                   (Div_backward 0 1 (length quotient_leaves))])) ∧
  (∃ ta tb : ztensor,
     quotient_seeded !! 0 = Some ta ∧ quotient_seeded !! 1 = Some tb ∧
     requires_grad ta = true ∧ requires_grad tb = true ∧
     call (Div_backward 0 1 2) quotient_seeded =
       Ok (tt, <[1 := with_grad (np := ZHost false) (vec [(-6)%Z]) tb]>
                 (<[0 := with_grad (np := ZHost false) (vec [(-1)%Z]) ta]>
                    quotient_seeded))).
Proof.
  destruct (Div_forward_backward (np := ZHost false)) as (H1 & H2).
  split.
  - eexists _, _. split; [reflexivity|]. split; [reflexivity|].
    exact (H1 0 1 quotient_leaves _ _ (vec [(-6)%Z])
              eq_refl eq_refl eq_refl).
  - eexists _, _. repeat (split; [reflexivity|]).
    exact (H2 0 1 2 quotient_seeded _ _ _
              (vec [(-1)%Z]) (vec [(-1)%Z]) (vec [(-1)%Z])
              (vec [(-6)%Z]) (vec [1%Z]) (vec [(-6)%Z]) (vec [(-6)%Z])
              eq_refl eq_refl eq_refl ltac:(lia) ltac:(lia)
              eq_refl eq_refl eq_refl eq_refl eq_refl eq_refl eq_refl
              eq_refl eq_refl).
Defined.

Lemma sub_forward_backward_witness :
  (∃ ta tb : ztensor,
     two_grad_leaves !! 0 = Some ta ∧ two_grad_leaves !! 1 = Some tb ∧
     __sub__ 0 (OTensor 1) two_grad_leaves =
       Ok (S (length two_grad_leaves),
           two_grad_leaves ++
             [node (np := ZHost false) (vec [(-3)%Z]) [1] "neg"
                   (requires_grad tb)
                   (Neg_backward 1 (length two_grad_leaves));
              node (np := ZHost false) (vec [(-1)%Z])
                   [0; length two_grad_leaves] "+"
                   (requires_grad ta || requires_grad tb)
                   (Add_backward 0 (length two_grad_leaves)
                                 (S (length two_grad_leaves)))])) ∧
  (acyclic two_grad_leaves ∧
   ∃ (ta tb : ztensor) (s1 s2 : zheap),
     two_grad_leaves !! 0 = Some ta ∧ two_grad_leaves !! 1 = Some tb ∧
     __sub__ 0 (OTensor 1) two_grad_leaves =
       Ok (S (length two_grad_leaves), s1) ∧
     backward (S (length two_grad_leaves)) s1 = Ok (tt, s2) ∧
     s2 !! 0 = Some (with_grad (np := ZHost false) (vec [1%Z]) ta) ∧
     s2 !! 1 = Some (with_grad (np := ZHost false) (vec [(-1)%Z]) tb) ∧
     @grad (ZHost false) <$> s2 !! length two_grad_leaves =
       Some (vec [1%Z]) ∧
     @grad (ZHost false) <$> s2 !! S (length two_grad_leaves) =
       Some (ones_like (Host := ZHost false) (vec [(-1)%Z]))).
Proof.
  destruct (sub_forward_backward (np := ZHost false)) as (H1 & H2).
  split.
  - eexists _, _. split; [reflexivity|]. split; [reflexivity|].
    exact (H1 0 1 two_grad_leaves _ _ (vec [(-3)%Z]) (vec [(-1)%Z])
              eq_refl eq_refl eq_refl eq_refl).
  - assert (acyclic two_grad_leaves) as Hacyc
      by (apply acyclicb_sound; reflexivity).
    split; [exact Hacyc|]. eexists _, _.
    destruct (H2 0 1 two_grad_leaves _ _ (vec [(-3)%Z]) (vec [(-1)%Z])
                 (vec [1%Z]) (vec [1%Z]) (vec [(-1)%Z]) (vec [(-1)%Z])
                 Hacyc eq_refl eq_refl ltac:(lia)
                 eq_refl eq_refl eq_refl eq_refl eq_refl
                 eq_refl eq_refl eq_refl eq_refl eq_refl eq_refl)
      as (s1 & s2 & Hw).
    exists s1, s2. split; [reflexivity|]. split; [reflexivity|]. exact Hw.
Defined.


Lemma forward_raises_array_errors_only_witness :
  apply_op (CAdd 0 1) ragged_leaves = Err ArrayError ∧
  operator OpMul 0 (OTensor 1) ragged_leaves = Err ArrayError ∧
  operator OpDiv 0 (@ONum (ZHost false) 0%Z) lone_leaf = Err ArrayError ∧
  ArrayError = ArrayError.
Proof.
  destruct (forward_raises_array_errors_only (np := ZHost false))
    as (Hop & Hten & Hnum & _).
  split; [reflexivity|]. split; [reflexivity|]. split; [reflexivity|].
  assert (ArrayError = ArrayError) as H1.
  { refine (Hop (CAdd 0 1) ragged_leaves ArrayError _ eq_refl).
    intros x Hx. cbn in Hx.
    repeat (apply elem_of_cons in Hx as [-> | Hx]); vm_compute; try lia.
    by apply elem_of_nil in Hx. }
  assert (ArrayError = ArrayError) as H2.
  { refine (Hten OpMul 0 1 ragged_leaves ArrayError _ _ eq_refl); vm_compute; lia. }
  refine (Hnum OpDiv 0 0%Z lone_leaf ArrayError _ _ eq_refl);
    [vm_compute; lia | discriminate].
Defined.
